(** * Apparent polar wander simulation: rotation core

    Shallow embedding of [apparent_polar_wander_simulation.py]:
    [rotation_matrix], [spherical_to_cartesian], [cartesian_to_spherical]
    and [simulate_plate_motion], with the NumPy primitives they call.

    Numbers.  The program is embedded twice.

    In the first embedding a double is an exact real number ([R]) or
    NaN: no rounding, no overflow, no infinity, one zero.  The one
    operation of the program that leaves the reals, the quotient
    [axis / norm axis] of [rotation_matrix], yields [NaN] on a zero
    divisor, as NumPy does (with a warning, not an exception); [NaN]
    then propagates through every later operation.  What is proved on
    this embedding is what the program computes in exact arithmetic;
    statements on the structure of a run (lengths, indices, order, the
    error raised) do not depend on the arithmetic.

    In the second embedding, module [B64] below, a double is a primitive
    IEEE 754 binary64 float.  It serves to run the program on particular
    doubles, and shows where the doubles leave exact arithmetic.

    Exceptions.  A Python call either returns or raises; [result] keeps
    both.  The only raise on the simulator's path is the [ValueError] of
    [np.linspace] on a negative sample count. *)

From Stdlib Require Import Reals Lra Lia ZArith Psatz RNsatz Machin.
From Stdlib Require Floats Uint63.
From stdpp Require Import base list.

Open Scope R_scope.

(** ** Numbers of exact arithmetic *)

Inductive float : Type :=
| Fin (r : R)
| NaN.

Definition lift1 (f : R -> R) (a : float) : float :=
  match a with
  | Fin x => Fin (f x)
  | NaN => NaN
  end.

Definition lift2 (f : R -> R -> R) (a b : float) : float :=
  match a, b with
  | Fin x, Fin y => Fin (f x y)
  | _, _ => NaN
  end.

Definition fadd : float -> float -> float := lift2 Rplus.
Definition fsub : float -> float -> float := lift2 Rminus.
Definition fmul : float -> float -> float := lift2 Rmult.

(** Quotient.  [0/0] is NaN.  A nonzero dividend over zero is an
    infinity in IEEE arithmetic; the type has none, and the program's
    only quotient divides the components of a vector by its Euclidean
    norm, where in exact arithmetic a zero divisor forces zero dividends
    (lemma [norm_zero_inv] below).  In binary64 the norm of a nonzero
    axis can be 0: see [B64.tiny_axis]. *)
Definition fdiv (a b : float) : float :=
  match a, b with
  | Fin x, Fin y => if Req_dec_T y 0 then NaN else Fin (x / y)
  | _, _ => NaN
  end.

Definition fsqrt : float -> float := lift1 sqrt.

Declare Scope fl_scope.
Delimit Scope fl_scope with fl.
Bind Scope fl_scope with float.
Infix "+" := fadd : fl_scope.
Infix "-" := fsub : fl_scope.
Infix "*" := fmul : fl_scope.
Infix "/" := fdiv : fl_scope.

(** ** NumPy primitives *)

(** [np.deg2rad] and [np.rad2deg]. *)
Definition deg2rad (x : R) : R := x * (PI / 180).
Definition rad2deg (x : R) : R := x * (180 / PI).

(** [np.clip z lo hi = minimum (maximum z lo) hi]. *)
Definition clip (z lo hi : R) : R := Rmin (Rmax z lo) hi.

(** [np.arcsin] on [[-1, 1]] is [asin]. *)
Definition arcsin (z : R) : R := asin z.

(** [np.arctan2 y x] in exact arithmetic: the angle of the point
    [(x, y)], in [(-PI, PI]]; [arctan2 0 0 = 0].  With one zero only,
    [-PI] is never returned; [B64.np_arctan2] has the signed zeros. *)
Definition arctan2 (y x : R) : R :=
  if Rlt_dec 0 x then atan (y / x)
  else if Rlt_dec x 0 then
         if Rle_dec 0 y then atan (y / x) + PI else atan (y / x) - PI
  else if Rlt_dec 0 y then PI / 2
  else if Rlt_dec y 0 then - (PI / 2)
  else 0.

(** ** Exceptions *)

(** [ValueError] is what NumPy raises.  [InvalidAxis] and
    [InvalidParameters] are the error kinds the specification names; no
    statement of the source raises them. *)
Inductive exn : Type :=
| ValueError
| InvalidAxis
| InvalidParameters.

Inductive result (A : Type) : Type :=
| Returned (a : A)
| Raised (e : exn).
Arguments Returned {A} a.
Arguments Raised {A} e.

#[global] Instance result_ret : MRet result := fun _ a => Returned a.
#[global] Instance result_bind : MBind result := fun _ _ k m =>
  match m with
  | Returned a => k a
  | Raised e => Raised e
  end.

(** ** Vectors and matrices *)

Definition vec : Type := float * float * float.
Definition mat : Type := vec * vec * vec.

Definition vfin (x y z : R) : vec := (Fin x, Fin y, Fin z).

Definition dot (u v : vec) : float :=
  let '(a, b, c) := u in
  let '(x, y, z) := v in
  (a * x + b * y + c * z)%fl.

(** [np.linalg.norm] of a 1-D array: the Euclidean norm. *)
Definition norm (v : vec) : float := fsqrt (dot v v).

(** [axis / n], componentwise. *)
Definition vdiv (v : vec) (n : float) : vec :=
  let '(x, y, z) := v in ((x / n)%fl, (y / n)%fl, (z / n)%fl).

(** [m.T]. *)
Definition transpose (m : mat) : mat :=
  let '((a, b, c), (d, e, f), (g, h, i)) := m in
  ((a, d, g), (b, e, h), (c, f, i)).

(** [m @ v]. *)
Definition matvec (m : mat) (v : vec) : vec :=
  let '(r0, r1, r2) := m in (dot r0 v, dot r1 v, dot r2 v).

(** [a @ b], used to state orthogonality. *)
Definition matmul (a b : mat) : mat :=
  let '(r0, r1, r2) := a in
  let '(c0, c1, c2) := transpose b in
  ((dot r0 c0, dot r0 c1, dot r0 c2),
   (dot r1 c0, dot r1 c1, dot r1 c2),
   (dot r2 c0, dot r2 c1, dot r2 c2)).

Definition identity : mat :=
  (vfin 1 0 0, vfin 0 1 0, vfin 0 0 1).

Definition nan_vec : vec := (NaN, NaN, NaN).
Definition nan_mat : mat := (nan_vec, nan_vec, nan_vec).

(** ** The program *)

Record PlateMotionParameters : Type := {
  angular_velocity_deg_per_myr : R;
  rotation_axis_lat : R;
  rotation_axis_lon : R;
  total_time_myr : R;
  time_steps : Z
}.

Record SimulationResult : Type := {
  time_myr : list R;
  continent_lat_lon : list (float * float);
  apparent_pole_lat_lon : list (float * float)
}.

Definition rotation_matrix (axis : vec) (angle_rad : R) : mat :=
  let axis := vdiv axis (norm axis) in
  let '(x, y, z) := axis in
  let c := Fin (cos angle_rad) in
  let s := Fin (sin angle_rad) in
  let C := (Fin 1 - c)%fl in
  (((c + x * x * C)%fl, (x * y * C - z * s)%fl, (x * z * C + y * s)%fl),
   ((y * x * C + z * s)%fl, (c + y * y * C)%fl, (y * z * C - x * s)%fl),
   ((z * x * C - y * s)%fl, (z * y * C + x * s)%fl, (c + z * z * C)%fl)).

Definition spherical_to_cartesian (lat_deg lon_deg : R) : vec :=
  let lat := deg2rad lat_deg in
  let lon := deg2rad lon_deg in
  let x := cos lat * cos lon in
  let y := cos lat * sin lon in
  let z := sin lat in
  vfin x y z.

Definition cartesian_to_spherical (vector : vec) : float * float :=
  let '(x, y, z) := vector in
  let lat := lift1 rad2deg (lift1 arcsin (lift1 (fun z => clip z (-1) 1) z)) in
  let lon := lift1 rad2deg (lift2 arctan2 y x) in
  (lat, lon).

(** [y[-1] = v]: overwrite the last entry of a non-empty array. *)
Definition set_last (y : list R) (v : R) : list R :=
  <[pred (length y) := v]> y.

(** [np.linspace start stop num] (endpoint included), following
    NumPy's implementation: the ramp [0, 1, ..., num-1] is scaled by the
    step, shifted by [start], and its last entry is overwritten by
    [stop]. *)
Definition linspace (start stop : R) (num : Z) : result (list R) :=
  if (num <? 0)%Z then Raised ValueError
  else
    let div := (num - 1)%Z in
    let delta := stop - start in
    let y := map INR (seq 0 (Z.to_nat num)) in
    let y :=
      if (0 <? div)%Z then
        let step := delta / IZR div in
        if Req_dec_T step 0
        then map (fun v => v / IZR div * delta) y
        else map (fun v => v * step) y
      else map (fun v => v * delta) y in
    let y := map (fun v => v + start) y in
    let y := if (1 <? num)%Z then set_last y stop else y in
    Returned y.

(** [np.zeros((n, 2))]. *)
Definition zeros (n : Z) : list (float * float) :=
  replicate (Z.to_nat n) (Fin 0, Fin 0).

(** [enumerate]. *)
Definition enumerate {A : Type} (l : list A) : list (nat * A) :=
  zip (seq 0 (length l)) l.

(** One iteration of the loop of [simulate_plate_motion], on the pair
    of output arrays. *)
Definition loop_body (axis continent_vector pole_vector : vec)
    (arrays : list (float * float) * list (float * float))
    (step : nat * R) : list (float * float) * list (float * float) :=
  let '(continent_lat_lon, apparent_lat_lon) := arrays in
  let '(i, angle) := step in
  let rot := rotation_matrix axis angle in
  let past_continent := matvec rot continent_vector in
  let apparent_pole := matvec (transpose rot) pole_vector in
  (<[i := cartesian_to_spherical past_continent]> continent_lat_lon,
   <[i := cartesian_to_spherical apparent_pole]> apparent_lat_lon).

Definition simulate_plate_motion (params : PlateMotionParameters)
    (continent_present_lat continent_present_lon : R)
    : result SimulationResult :=
  let axis :=
    spherical_to_cartesian (rotation_axis_lat params)
                           (rotation_axis_lon params) in
  let pole_vector := vfin 0 0 1 in
  let continent_vector :=
    spherical_to_cartesian continent_present_lat continent_present_lon in
  time ← linspace 0 (total_time_myr params) (time_steps params);
  let rotation_angles :=
    map (fun t => deg2rad (angular_velocity_deg_per_myr params * t)) time in
  let continent_lat_lon := zeros (time_steps params) in
  let apparent_lat_lon := zeros (time_steps params) in
  let '(continent_lat_lon, apparent_lat_lon) :=
    fold_left (loop_body axis continent_vector pole_vector)
              (enumerate rotation_angles)
              (continent_lat_lon, apparent_lat_lon) in
  mret {| time_myr := time;
          continent_lat_lon := continent_lat_lon;
          apparent_pole_lat_lon := apparent_lat_lon |}.

(** What the loop stores at a time step of rotation angle [angle]: the
    two right-hand sides of its assignments. *)
Definition continent_at (axis continent_vector : vec) (angle : R)
    : float * float :=
  cartesian_to_spherical
    (matvec (rotation_matrix axis angle) continent_vector).

Definition apparent_pole_at (axis pole_vector : vec) (angle : R)
    : float * float :=
  cartesian_to_spherical
    (matvec (transpose (rotation_matrix axis angle)) pole_vector).

(** ** Auxiliary definitions for the statements *)

(** The matrix of [rotation_matrix] once the axis is normalised, on
    real components: Rodrigues' formula for the unit axis [(x, y, z)]. *)
Definition rodrigues (x y z angle : R) : mat :=
  let c := cos angle in
  let s := sin angle in
  let C := 1 - c in
  (vfin (c + x * x * C) (x * y * C - z * s) (x * z * C + y * s),
   vfin (y * x * C + z * s) (c + y * y * C) (y * z * C - x * s),
   vfin (z * x * C - y * s) (z * y * C + x * s) (c + z * z * C)).

(** The point opposite to [v] on the sphere. *)
Definition antipode (v : vec) : vec :=
  let '(x, y, z) := v in (lift1 Ropp x, lift1 Ropp y, lift1 Ropp z).

(** The result of a run with no time step. *)
Definition empty_result : SimulationResult :=
  {| time_myr := []; continent_lat_lon := []; apparent_pole_lat_lon := [] |}.

(** The command line's default parameters. *)
Definition default_params : PlateMotionParameters :=
  {| angular_velocity_deg_per_myr := 1 / 2;
     rotation_axis_lat := 60;
     rotation_axis_lon := -90;
     total_time_myr := 120;
     time_steps := 200 |}.

(** ** Vector algebra for the statements *)

Definition vadd (u v : vec) : vec :=
  let '(a, b, c) := u in
  let '(x, y, z) := v in
  ((a + x)%fl, (b + y)%fl, (c + z)%fl).

Definition vscale (k : float) (v : vec) : vec :=
  let '(x, y, z) := v in ((k * x)%fl, (k * y)%fl, (k * z)%fl).

Definition cross (u v : vec) : vec :=
  let '(a, b, c) := u in
  let '(x, y, z) := v in
  ((b * z - c * y)%fl, (c * x - a * z)%fl, (a * y - b * x)%fl).

(** ** Presentation: which samples are printed and annotated *)

(** [x.astype(int)] on a double: truncation toward zero. *)
Definition astype_int (x : R) : Z :=
  if Rlt_dec x 0 then Zceil x else Zfloor x.

(** [arr[idx]] on a NumPy array or a list: a negative index counts from
    the end; [None] stands for the [IndexError] of an index out of
    range. *)
Definition getitem {A : Type} (arr : list A) (idx : Z) : option A :=
  let len := Z.of_nat (length arr) in
  if (idx <? 0)%Z then
    if (idx + len <? 0)%Z then None else arr !! Z.to_nat (idx + len)
  else arr !! Z.to_nat idx.

(** The row indices of [format_summary_table]:
    [np.linspace(0, len(time_myr) - 1, min(max_rows, len(time_myr)))
       .astype(int)]. *)
Definition summary_indices (res : SimulationResult) (max_rows : Z)
    : result (list Z) :=
  let len := Z.of_nat (length (time_myr res)) in
  y ← linspace 0 (IZR (len - 1)) (Z.min max_rows len);
  mret (map astype_int y).

(** The three reads of one iteration of the loop of
    [format_summary_table]; the text of the row is a formatting of these
    values. *)
Definition summary_row (res : SimulationResult) (idx : Z)
    : option (R * (float * float) * (float * float)) :=
  time ← getitem (time_myr res) idx;
  c ← getitem (continent_lat_lon res) idx;
  p ← getitem (apparent_pole_lat_lon res) idx;
  Some (time, c, p).

(** The test that appends the line saying that the table was
    truncated: [len(indices) < len(result.time_myr)]. *)
Definition summary_truncated (indices : list Z) (res : SimulationResult)
    : bool :=
  (length indices <? length (time_myr res))%nat.

(** [np.argmin]: the index of the first occurrence of the minimum;
    [ValueError] on an empty array. *)
Fixpoint argmin_from (best_index : nat) (best : R) (i : nat) (l : list R)
    : nat :=
  match l with
  | [] => best_index
  | x :: l' =>
      if Rlt_dec x best then argmin_from i x (S i) l'
      else argmin_from best_index best (S i) l'
  end.

Definition argmin (l : list R) : result nat :=
  match l with
  | [] => Raised ValueError
  | x :: l' => Returned (argmin_from 0 x 1 l')
  end.

(** The sample that carries the annotation of the time [t] in
    [create_visualisation]: [np.argmin(np.abs(result.time_myr - t))].
    The annotated times are 0, half the total time and the total
    time. *)
Definition marker_index (res : SimulationResult) (t : R) : result nat :=
  argmin (map (fun time => Rabs (time - t)) (time_myr res)).

(** ** The program in binary64 arithmetic

    A second embedding, used to show where the doubles of the program
    leave exact arithmetic.  A double is a primitive IEEE 754 binary64
    float: sums, products, quotients, square roots and comparisons are
    the processor's, with their rounding, signed zeros, infinities and
    NaN.  The functions of the C library behind [np.cos], [np.sin],
    [np.arcsin] and [np.arctan2] are taken to return the double nearest
    to the exact value, with the special values of C99 Annex F. *)

Module B64.
Import Floats.

(** The real number held by a finite double (0 for the others). *)
Definition F2R (x : float) : R :=
  match Prim2SF x with
  | S754_finite s m e =>
      (if s then -1 else 1) * (IZR (Zpos m) * powerRZ 2 e)
  | _ => 0
  end.

Definition is_finite (x : float) : bool :=
  match Prim2SF x with
  | S754_zero _ | S754_finite _ _ _ => true
  | _ => false
  end.

Definition is_zero (x : float) : bool :=
  match Prim2SF x with
  | S754_zero _ => true
  | _ => false
  end.

(** The sign bit, also that of a zero. *)
Definition sign_bit (x : float) : bool :=
  match Prim2SF x with
  | S754_zero s | S754_infinity s | S754_finite s _ _ => s
  | S754_nan => false
  end.

(** Nearest integer, ties to the even one. *)
Definition nearest_even (x : R) : Z :=
  let f := Zfloor x in
  if Rlt_dec (x - IZR f) (1 / 2) then f
  else if Rlt_dec (1 / 2) (x - IZR f) then (f + 1)%Z
  else if Z.even f then f else (f + 1)%Z.

(** Exponent of the last binary place of the doubles around [x]:
    53 significant bits, and [-1074] for the subnormal ones. *)
Definition ulp_exponent (x : R) : Z :=
  Z.max (Zfloor (ln (Rabs x) / ln 2) - 52) (-1074).

(** The double nearest to a real number (an infinity beyond the
    largest finite double). *)
Definition round_R (x : R) : float :=
  if Req_dec_T x 0 then 0%float
  else
    let e := ulp_exponent x in
    let m := nearest_even (Rabs x * powerRZ 2 (- e)) in
    let r := Z.ldexp (of_uint63 (Uint63.of_Z m)) e in
    if Rlt_dec x 0 then (- r)%float else r.

Definition pi : float := 0x1.921fb54442d18p+1%float.
Definition half_pi : float := 0x1.921fb54442d18p+0%float.
Definition quarter_pi : float := 0x1.921fb54442d18p-1%float.
Definition three_quarter_pi : float := 0x1.2d97c7f3321d2p+1%float.

(** [np.cos], [np.sin]: NaN on a NaN or an infinity; [sin] keeps a
    signed zero. *)
Definition np_cos (x : float) : float :=
  if is_finite x then round_R (cos (F2R x)) else nan.

Definition np_sin (x : float) : float :=
  if is_zero x then x
  else if is_finite x then round_R (sin (F2R x))
  else nan.

(** [np.arcsin]: NaN outside [[-1, 1]]; keeps a signed zero. *)
Definition np_arcsin (x : float) : float :=
  if is_zero x then x
  else if ((-1 <=? x) && (x <=? 1))%float then round_R (asin (F2R x))
  else nan.

(** [s] with the sign of [y]. *)
Definition with_sign_of (y s : float) : float :=
  if sign_bit y then (- s)%float else s.

(** [np.arctan2 y x], with the special values of C99 F.9.1.4. *)
Definition np_arctan2 (y x : float) : float :=
  match Prim2SF y, Prim2SF x with
  | S754_nan, _ | _, S754_nan => nan
  | S754_zero _, _ =>
      if sign_bit x then with_sign_of y pi else with_sign_of y 0%float
  | S754_infinity _, S754_infinity sx =>
      with_sign_of y (if sx then three_quarter_pi else quarter_pi)
  | S754_infinity _, _ => with_sign_of y half_pi
  | S754_finite _ _ _, S754_infinity sx =>
      with_sign_of y (if sx then pi else 0%float)
  | S754_finite _ _ _, _ => round_R (arctan2 (F2R y) (F2R x))
  end.

(** [np.deg2rad] and [np.rad2deg]: one product by the double nearest
    to [PI/180], resp. [180/PI]. *)
Definition np_deg2rad (x : float) : float :=
  (x * 0x1.1df46a2529d39p-6)%float.

Definition np_rad2deg (x : float) : float :=
  (x * 0x1.ca5dc1a63c1f8p+5)%float.

(** [np.clip z lo hi]: NaN stays NaN. *)
Definition np_clip (z lo hi : float) : float :=
  if (z <? lo)%float then lo
  else if (hi <? z)%float then hi
  else z.

Definition vec : Type := float * float * float.
Definition mat : Type := vec * vec * vec.

Definition dot (u v : vec) : float :=
  let '(a, b, c) := u in
  let '(x, y, z) := v in
  (a * x + b * y + c * z)%float.

(** [np.linalg.norm]: the square root of the dot product. *)
Definition norm (v : vec) : float := PrimFloat.sqrt (dot v v).

Definition vdiv (v : vec) (n : float) : vec :=
  let '(x, y, z) := v in ((x / n)%float, (y / n)%float, (z / n)%float).

Definition transpose (m : mat) : mat :=
  let '((a, b, c), (d, e, f), (g, h, i)) := m in
  ((a, d, g), (b, e, h), (c, f, i)).

Definition matvec (m : mat) (v : vec) : vec :=
  let '(r0, r1, r2) := m in (dot r0 v, dot r1 v, dot r2 v).

Definition nan_vec : vec := (nan, nan, nan).
Definition nan_mat : mat := (nan_vec, nan_vec, nan_vec).

Record PlateMotionParameters : Type := {
  angular_velocity_deg_per_myr : float;
  rotation_axis_lat : float;
  rotation_axis_lon : float;
  total_time_myr : float;
  time_steps : Z
}.

Record SimulationResult : Type := {
  time_myr : list float;
  continent_lat_lon : list (float * float);
  apparent_pole_lat_lon : list (float * float)
}.

Definition rotation_matrix (axis : vec) (angle_rad : float) : mat :=
  let axis := vdiv axis (norm axis) in
  let '(x, y, z) := axis in
  let c := np_cos angle_rad in
  let s := np_sin angle_rad in
  let C := (1 - c)%float in
  (((c + x * x * C)%float, (x * y * C - z * s)%float,
    (x * z * C + y * s)%float),
   ((y * x * C + z * s)%float, (c + y * y * C)%float,
    (y * z * C - x * s)%float),
   ((z * x * C - y * s)%float, (z * y * C + x * s)%float,
    (c + z * z * C)%float)).

Definition spherical_to_cartesian (lat_deg lon_deg : float) : vec :=
  let lat := np_deg2rad lat_deg in
  let lon := np_deg2rad lon_deg in
  let x := (np_cos lat * np_cos lon)%float in
  let y := (np_cos lat * np_sin lon)%float in
  let z := np_sin lat in
  (x, y, z).

Definition cartesian_to_spherical (vector : vec) : float * float :=
  let '(x, y, z) := vector in
  let lat := np_rad2deg (np_arcsin (np_clip z (-1) 1)) in
  let lon := np_rad2deg (np_arctan2 y x) in
  (lat, lon).

(** An integer as a double. *)
Definition of_Z (n : Z) : float :=
  if (n <? 0)%Z then (- of_uint63 (Uint63.of_Z (- n)))%float
  else of_uint63 (Uint63.of_Z n).

Definition linspace (start stop : float) (num : Z) : result (list float) :=
  if (num <? 0)%Z then Raised ValueError
  else
    let div := (num - 1)%Z in
    let delta := (stop - start)%float in
    let y := map (fun i : nat => of_Z (Z.of_nat i)) (seq 0 (Z.to_nat num)) in
    let y :=
      if (0 <? div)%Z then
        let step := (delta / of_Z div)%float in
        if (step =? 0)%float
        then map (fun v => (v / of_Z div * delta)%float) y
        else map (fun v => (v * step)%float) y
      else map (fun v => (v * delta)%float) y in
    let y := map (fun v => (v + start)%float) y in
    let y := if (1 <? num)%Z then <[pred (length y) := stop]> y else y in
    Returned y.

Definition zeros (n : Z) : list (float * float) :=
  replicate (Z.to_nat n) (0%float, 0%float).

Definition loop_body (axis continent_vector pole_vector : vec)
    (arrays : list (float * float) * list (float * float))
    (step : nat * float) : list (float * float) * list (float * float) :=
  let '(continent_lat_lon, apparent_lat_lon) := arrays in
  let '(i, angle) := step in
  let rot := rotation_matrix axis angle in
  let past_continent := matvec rot continent_vector in
  let apparent_pole := matvec (transpose rot) pole_vector in
  (<[i := cartesian_to_spherical past_continent]> continent_lat_lon,
   <[i := cartesian_to_spherical apparent_pole]> apparent_lat_lon).

Definition simulate_plate_motion (params : PlateMotionParameters)
    (continent_present_lat continent_present_lon : float)
    : result SimulationResult :=
  let axis :=
    spherical_to_cartesian (rotation_axis_lat params)
                           (rotation_axis_lon params) in
  let pole_vector := (0%float, 0%float, 1%float) in
  let continent_vector :=
    spherical_to_cartesian continent_present_lat continent_present_lon in
  time ← linspace 0 (total_time_myr params) (time_steps params);
  let rotation_angles :=
    map (fun t => np_deg2rad (angular_velocity_deg_per_myr params * t)%float)
        time in
  let continent_lat_lon := zeros (time_steps params) in
  let apparent_lat_lon := zeros (time_steps params) in
  let '(continent_lat_lon, apparent_lat_lon) :=
    fold_left (loop_body axis continent_vector pole_vector)
              (enumerate rotation_angles)
              (continent_lat_lon, apparent_lat_lon) in
  mret {| time_myr := time;
          continent_lat_lon := continent_lat_lon;
          apparent_pole_lat_lon := apparent_lat_lon |}.

(** Doubles at which the doubles of the program leave exact
    arithmetic.  89.99999985 degrees, and the double of its radians,
    [PI/2] less 2.6e-9: *)
Definition near_pole_lat : float := 0x1.67fffff5ef05p+6%float.
Definition near_pole_rad : float := 0x1.921fb539044dbp+0%float.

(** 1.1e-7 degrees, the double of its radians (1.9e-9), and the double
    next above 1.1e-7, which is 1.1000000000000002e-7: *)
Definition tiny_lat : float := 0x1.d87247702c0d0p-24%float.
Definition tiny_rad : float := 0x1.07dd252bef9f0p-29%float.
Definition tiny_lat_back : float := 0x1.d87247702c0d1p-24%float.

(** The axis [(1e-200, 0, 0)], and the double of -1e-20: *)
Definition tiny_axis : vec := (0x1.87e92154ef7acp-665, 0, 0)%float.
Definition tiny_negative : float := (-0x1.79ca10c924223p-67)%float.

End B64.

(** ** The loop over the time steps *)

Section Loop.
Variables axis continent_vector pole_vector : vec.

Local Abbreviation cont := (continent_at axis continent_vector).
Local Abbreviation apw := (apparent_pole_at axis pole_vector).

Lemma enumerate_snoc {A : Type} (l : list A) (a : A) :
  enumerate (l ++ [a]) = enumerate l ++ [(length l, a)].
Proof.
  unfold enumerate.
  rewrite length_app, seq_app. simpl.
  rewrite zip_with_app by (rewrite length_seq; reflexivity).
  reflexivity.
Qed.

(** Loop invariant: once the first [length l] steps have run, the
    first [length l] rows hold the steps' values and the other rows are
    still those of [np.zeros]. *)
Lemma loop_prefix (l : list R) :
  forall k : nat,
    fold_left (loop_body axis continent_vector pole_vector) (enumerate l)
      (replicate (length l + k) (Fin 0, Fin 0),
       replicate (length l + k) (Fin 0, Fin 0))
    = (map cont l ++ replicate k (Fin 0, Fin 0),
       map apw l ++ replicate k (Fin 0, Fin 0)).
Proof.
  induction l as [|a l IH] using rev_ind; intro k.
  - reflexivity.
  - rewrite enumerate_snoc, fold_left_app, length_app. simpl.
    replace (length l + 1 + k)%nat with (length l + S k)%nat by lia.
    rewrite IH. simpl.
    rewrite !map_app. simpl.
    assert (Hc : length (map cont l) = length l)
      by apply length_map.
    assert (Ha : length (map apw l) = length l)
      by apply length_map.
    rewrite <- Hc at 1. rewrite <- Ha at 1.
    rewrite <- (Nat.add_0_r (length (map cont l))).
    rewrite <- (Nat.add_0_r (length (map apw l))).
    rewrite !insert_app_r. simpl.
    rewrite <- !app_assoc. reflexivity.
Qed.

Lemma loop_all (l : list R) :
  fold_left (loop_body axis continent_vector pole_vector) (enumerate l)
    (replicate (length l) (Fin 0, Fin 0),
     replicate (length l) (Fin 0, Fin 0))
  = (map cont l, map apw l).
Proof.
  pose proof (loop_prefix l 0) as H.
  rewrite Nat.add_0_r in H. simpl in H.
  rewrite !app_nil_r in H. exact H.
Qed.
End Loop.

(** ** [np.linspace] *)

Lemma length_set_last (y : list R) (v : R) :
  length (set_last y v) = length y.
Proof. apply length_insert. Qed.

Lemma linspace_negative (start stop : R) (num : Z) :
  (num < 0)%Z -> linspace start stop num = Raised ValueError.
Proof.
  intro H. unfold linspace.
  destruct (Z.ltb_spec num 0); [reflexivity | lia].
Qed.

Lemma linspace_returns (start stop : R) (num : Z) :
  (0 <= num)%Z ->
  exists y, linspace start stop num = Returned y
            /\ length y = Z.to_nat num.
Proof.
  intro H. unfold linspace.
  destruct (Z.ltb_spec num 0); [lia|].
  eexists; split; [reflexivity|].
  destruct (1 <? num)%Z; rewrite ?length_set_last, length_map;
    destruct (0 <? num - 1)%Z; try destruct (Req_dec_T _ 0);
    rewrite length_map, length_map, length_seq; reflexivity.
Qed.

Lemma linspace_0 (start stop : R) : linspace start stop 0 = Returned [].
Proof. reflexivity. Qed.

Lemma linspace_1 (start stop : R) :
  linspace start stop 1 = Returned [0 * (stop - start) + start].
Proof. reflexivity. Qed.

(** The value at each index, for two samples or more. *)
Lemma linspace_lookup (start stop : R) (num : Z) (y : list R) (i : nat) :
  (1 < num)%Z ->
  linspace start stop num = Returned y ->
  (i < Z.to_nat num)%nat ->
  y !! i = Some (start + INR i * ((stop - start) / IZR (num - 1))).
Proof.
  intros Hnum Hy Hi. unfold linspace in Hy.
  destruct (Z.ltb_spec num 0); [lia|].
  destruct (Z.ltb_spec 0 (num - 1)); [|lia].
  destruct (Z.ltb_spec 1 num); [|lia].
  injection Hy as <-.
  assert (Hd : IZR (num - 1) <> 0) by (apply not_0_IZR; lia).
  set (ramp := map INR (seq 0 (Z.to_nat num))).
  assert (Hramp : ramp !! i = Some (INR i)).
  { unfold ramp. rewrite list_lookup_fmap, lookup_seq_lt by lia.
    reflexivity. }
  assert (Hlen : length ramp = Z.to_nat num).
  { unfold ramp. rewrite length_map, length_seq. reflexivity. }
  set (scaled := if Req_dec_T ((stop - start) / IZR (num - 1)) 0
                 then map (fun v => v / IZR (num - 1) * (stop - start)) ramp
                 else map (fun v => v * ((stop - start) / IZR (num - 1))) ramp).
  assert (Hscaled : scaled !! i
                    = Some (INR i * ((stop - start) / IZR (num - 1)))).
  { unfold scaled. destruct (Req_dec_T _ 0).
    - rewrite list_lookup_fmap, Hramp. simpl. f_equal. field. exact Hd.
    - rewrite list_lookup_fmap, Hramp. reflexivity. }
  assert (Hslen : length scaled = Z.to_nat num).
  { unfold scaled. destruct (Req_dec_T _ 0); rewrite length_map; exact Hlen. }
  unfold set_last. rewrite length_map, Hslen.
  destruct (decide (i = pred (Z.to_nat num))) as [->|Hne].
  - rewrite list_lookup_insert_eq by (rewrite length_map, Hslen; lia).
    f_equal.
    replace (INR (pred (Z.to_nat num))) with (IZR (num - 1)).
    + field. exact Hd.
    + rewrite INR_IZR_INZ. f_equal. lia.
  - rewrite list_lookup_insert_ne by congruence.
    rewrite list_lookup_fmap, Hscaled. simpl. f_equal. lra.
Qed.

(** The time values never decrease when [stop] is not below [start],
    and increase strictly when it is above. *)
Lemma linspace_monotone (start stop : R) (num : Z) (y : list R)
    (i j : nat) (a b : R) :
  linspace start stop num = Returned y ->
  (i < j)%nat -> y !! i = Some a -> y !! j = Some b ->
  (start <= stop -> a <= b) /\ (start < stop -> a < b).
Proof.
  intros Hy Hij Ha Hb.
  assert (Hnum : (0 <= num)%Z).
  { destruct (Z.lt_ge_cases num 0) as [Hn|Hn]; [|exact Hn].
    rewrite linspace_negative in Hy by exact Hn. discriminate. }
  destruct (linspace_returns start stop num Hnum) as (y' & Hy' & Hlen).
  assert (y' = y) as -> by congruence.
  apply lookup_lt_Some in Ha as Hi, Hb as Hj.
  assert (Hgt : (1 < num)%Z) by lia.
  rewrite (linspace_lookup start stop num y i Hgt Hy) in Ha by lia.
  rewrite (linspace_lookup start stop num y j Hgt Hy) in Hb by lia.
  injection Ha as <-. injection Hb as <-.
  assert (Hd : 0 < IZR (num - 1)) by (apply IZR_lt; lia).
  assert (Hinr : INR i < INR j) by (apply lt_INR; exact Hij).
  split; intro Hle.
  - assert (0 <= (stop - start) / IZR (num - 1)).
    { apply Rmult_le_pos; [lra|]. left. apply Rinv_0_lt_compat. exact Hd. }
    nra.
  - assert (0 < (stop - start) / IZR (num - 1)).
    { apply Rmult_lt_0_compat; [lra|]. apply Rinv_0_lt_compat. exact Hd. }
    nra.
Qed.

(** ** The simulator as a map over the time values *)

Section Simulate.
Variable params : PlateMotionParameters.
Variables continent_present_lat continent_present_lon : R.

Local Abbreviation axis_vector :=
  (spherical_to_cartesian (rotation_axis_lat params)
                          (rotation_axis_lon params)).
Local Abbreviation angle_at :=
  (fun t : R => deg2rad (angular_velocity_deg_per_myr params * t)).

Lemma simulate_returned (time : list R) :
  linspace 0 (total_time_myr params) (time_steps params) = Returned time ->
  simulate_plate_motion params continent_present_lat continent_present_lon
  = Returned
      {| time_myr := time;
         continent_lat_lon :=
           map (fun t =>
                  continent_at axis_vector
                    (spherical_to_cartesian continent_present_lat
                                            continent_present_lon)
                    (angle_at t)) time;
         apparent_pole_lat_lon :=
           map (fun t => apparent_pole_at axis_vector (vfin 0 0 1)
                           (angle_at t)) time |}.
Proof.
  intro Ht.
  assert (Hnum : (0 <= time_steps params)%Z).
  { destruct (Z.lt_ge_cases (time_steps params) 0) as [Hn|Hn]; [|exact Hn].
    rewrite linspace_negative in Ht by exact Hn. discriminate. }
  destruct (linspace_returns 0 (total_time_myr params) _ Hnum)
    as (y & Hy & Hlen).
  assert (y = time) as -> by congruence.
  unfold simulate_plate_motion. rewrite Ht. simpl. unfold zeros.
  rewrite <- Hlen.
  rewrite <- (length_map angle_at time).
  rewrite loop_all. rewrite !map_map. reflexivity.
Qed.

Lemma simulate_raised :
  (time_steps params < 0)%Z ->
  simulate_plate_motion params continent_present_lat continent_present_lon
  = Raised ValueError.
Proof.
  intro H. unfold simulate_plate_motion.
  rewrite linspace_negative by exact H. reflexivity.
Qed.

End Simulate.
(** ** Real-number facts about the primitives *)

Lemma rad2deg_deg2rad x : rad2deg (deg2rad x) = x.
Proof. unfold rad2deg, deg2rad. field. apply PI_neq0. Qed.

Lemma deg2rad_rad2deg x : deg2rad (rad2deg x) = x.
Proof. unfold rad2deg, deg2rad. field. apply PI_neq0. Qed.

Lemma rad2deg_le x y : x <= y -> rad2deg x <= rad2deg y.
Proof.
  intro H. unfold rad2deg. apply Rmult_le_compat_r; [|exact H].
  pose proof PI_RGT_0. left. apply Rdiv_lt_0_compat; lra.
Qed.

Lemma rad2deg_lt x y : x < y -> rad2deg x < rad2deg y.
Proof.
  intro H. unfold rad2deg. apply Rmult_lt_compat_r; [|exact H].
  pose proof PI_RGT_0. apply Rdiv_lt_0_compat; lra.
Qed.

Lemma rad2deg_PI : rad2deg PI = 180.
Proof. unfold rad2deg. field. apply PI_neq0. Qed.

Lemma rad2deg_PI2 : rad2deg (PI / 2) = 90.
Proof. unfold rad2deg. field. apply PI_neq0. Qed.

Lemma rad2deg_opp x : rad2deg (- x) = - rad2deg x.
Proof. unfold rad2deg. ring. Qed.

Lemma arctan2_range y x : - PI < arctan2 y x <= PI.
Proof.
  pose proof PI_RGT_0 as Hpi.
  unfold arctan2.
  destruct (Rlt_dec 0 x) as [Hx|Hx].
  - pose proof (atan_bound (y / x)). lra.
  - destruct (Rlt_dec x 0) as [Hx'|Hx'].
    + pose proof (atan_bound (y / x)) as Hb.
      destruct (Rle_dec 0 y) as [Hy|Hy].
      * assert (y / x <= 0).
        { unfold Rdiv. assert (/ x < 0) by (apply Rinv_lt_0_compat; exact Hx').
          nra. }
        assert (atan (y / x) <= 0).
        { destruct (Req_dec (y / x) 0) as [->|Hne].
          - rewrite atan_0. lra.
          - rewrite <- atan_0. left. apply atan_increasing. lra. }
        lra.
      * assert (0 < y / x).
        { unfold Rdiv. assert (/ x < 0) by (apply Rinv_lt_0_compat; exact Hx').
          nra. }
        assert (0 < atan (y / x)).
        { rewrite <- atan_0. apply atan_increasing. lra. }
        lra.
    + destruct (Rlt_dec 0 y); [lra|]. destruct (Rlt_dec y 0); lra.
Qed.

Lemma tan_shift_PI x : cos x <> 0 -> tan (x - PI) = tan x.
Proof.
  intro H. unfold tan.
  replace (x - PI) with (- (PI - x)) by ring.
  rewrite sin_neg, cos_neg.
  rewrite Rtrigo_facts.sin_pi_minus, Rtrigo_facts.cos_pi_minus.
  field. exact H.
Qed.

Lemma arctan2_pos_x y x : 0 < x -> arctan2 y x = atan (y / x).
Proof. intro H. unfold arctan2. destruct (Rlt_dec 0 x); [reflexivity|lra]. Qed.

Lemma arctan2_neg_x_nonneg_y y x :
  x < 0 -> 0 <= y -> arctan2 y x = atan (y / x) + PI.
Proof.
  intros Hx Hy. unfold arctan2.
  destruct (Rlt_dec 0 x); [lra|]. destruct (Rlt_dec x 0); [|lra].
  destruct (Rle_dec 0 y); [reflexivity|lra].
Qed.

Lemma arctan2_neg_x_neg_y y x :
  x < 0 -> y < 0 -> arctan2 y x = atan (y / x) - PI.
Proof.
  intros Hx Hy. unfold arctan2.
  destruct (Rlt_dec 0 x); [lra|]. destruct (Rlt_dec x 0); [|lra].
  destruct (Rle_dec 0 y); [lra|reflexivity].
Qed.

Lemma arctan2_zero_x y :
  arctan2 y 0 = if Rlt_dec 0 y then PI / 2
                else if Rlt_dec y 0 then - (PI / 2) else 0.
Proof.
  unfold arctan2. destruct (Rlt_dec 0 0); [lra|reflexivity].
Qed.

Lemma polar_quotient r t : 0 < r -> cos t <> 0 ->
  r * sin t / (r * cos t) = tan t.
Proof. intros Hr Hc. unfold tan. field. split; lra. Qed.

(** [arctan2] recovers the angle of a point given in polar form. *)
Lemma arctan2_polar r t :
  0 < r -> - PI < t <= PI -> arctan2 (r * sin t) (r * cos t) = t.
Proof.
  intros Hr [Hlo Hhi]. pose proof PI_RGT_0 as Hpi.
  destruct (Rlt_dec t (- (PI / 2))) as [H1|H1].
  - (* third quadrant *)
    assert (Hc : cos t < 0).
    { rewrite <- cos_neg. apply cos_lt_0; lra. }
    assert (Hs : sin t < 0) by (apply sin_lt_0_var; lra).
    rewrite arctan2_neg_x_neg_y by nra.
    rewrite polar_quotient by lra.
    assert (Ht : tan t = tan (t + PI)).
    { rewrite <- (tan_shift_PI (t + PI)) by (rewrite neg_cos; lra).
      f_equal. ring. }
    rewrite Ht, atan_tan by lra. ring.
  - destruct (Req_dec t (- (PI / 2))) as [->|H2].
    + rewrite cos_neg, sin_neg, cos_PI2, sin_PI2.
      replace (r * 0) with 0 by ring.
      rewrite arctan2_zero_x.
      destruct (Rlt_dec 0 (r * - (1))); [nra|].
      destruct (Rlt_dec (r * - (1)) 0); [reflexivity|nra].
    + destruct (Rlt_dec t (PI / 2)) as [H3|H3].
      * assert (Hc : 0 < cos t) by (apply cos_gt_0; lra).
        rewrite arctan2_pos_x by nra.
        rewrite polar_quotient by lra.
        apply atan_tan. lra.
      * destruct (Req_dec t (PI / 2)) as [->|H4].
        -- rewrite cos_PI2, sin_PI2.
           replace (r * 0) with 0 by ring.
           rewrite arctan2_zero_x.
           destruct (Rlt_dec 0 (r * 1)); [reflexivity|nra].
        -- assert (Hc : cos t < 0) by (apply cos_lt_0; lra).
           assert (Hs : 0 <= sin t) by (apply sin_ge_0; lra).
           rewrite arctan2_neg_x_nonneg_y by nra.
           rewrite polar_quotient by lra.
           rewrite <- (tan_shift_PI t) by lra.
           rewrite atan_tan by lra. ring.
Qed.

Lemma clip_range z : -1 <= clip z (-1) 1 <= 1.
Proof.
  unfold clip, Rmin, Rmax.
  destruct (Rle_dec z (-1)); destruct (Rle_dec _ 1); lra.
Qed.

Lemma clip_id z : -1 <= z <= 1 -> clip z (-1) 1 = z.
Proof.
  intro H. unfold clip, Rmin, Rmax.
  destruct (Rle_dec z (-1)); destruct (Rle_dec _ 1); lra.
Qed.

Lemma cartesian_to_spherical_fin x y z :
  cartesian_to_spherical (vfin x y z)
  = (Fin (rad2deg (arcsin (clip z (-1) 1))), Fin (rad2deg (arctan2 y x))).
Proof. reflexivity. Qed.

Lemma latitude_range z : -90 <= rad2deg (arcsin (clip z (-1) 1)) <= 90.
Proof.
  pose proof (asin_bound (clip z (-1) 1)) as [Hlo Hhi].
  unfold arcsin. split.
  - replace (-90) with (rad2deg (- (PI / 2)))
      by (rewrite rad2deg_opp, rad2deg_PI2; reflexivity).
    apply rad2deg_le. lra.
  - rewrite <- rad2deg_PI2. apply rad2deg_le. exact Hhi.
Qed.

Lemma longitude_range y x : -180 < rad2deg (arctan2 y x) <= 180.
Proof.
  pose proof (arctan2_range y x) as [Hlo Hhi]. split.
  - replace (-180) with (rad2deg (- PI))
      by (rewrite rad2deg_opp, rad2deg_PI; reflexivity).
    apply rad2deg_lt. exact Hlo.
  - rewrite <- rad2deg_PI. apply rad2deg_le. exact Hhi.
Qed.

Lemma deg2rad_bounds d lo hi :
  lo <= d <= hi -> deg2rad lo <= deg2rad d <= deg2rad hi.
Proof.
  intros [H1 H2]. unfold deg2rad. pose proof PI_RGT_0.
  assert (0 < PI / 180) by (apply Rdiv_lt_0_compat; lra).
  split; apply Rmult_le_compat_r; lra.
Qed.

Lemma deg2rad_90 : deg2rad 90 = PI / 2.
Proof. unfold deg2rad. field. Qed.

Lemma deg2rad_180 : deg2rad 180 = PI.
Proof. unfold deg2rad. field. Qed.

Lemma deg2rad_opp d : deg2rad (- d) = - deg2rad d.
Proof. unfold deg2rad. ring. Qed.

Lemma deg2rad_lt a b : a < b -> deg2rad a < deg2rad b.
Proof.
  intro H. unfold deg2rad. pose proof PI_RGT_0.
  apply Rmult_lt_compat_r; [apply Rdiv_lt_0_compat; lra | exact H].
Qed.

(** Latitude survives the round trip. *)
Lemma latitude_roundtrip lat :
  -90 <= lat <= 90 ->
  rad2deg (arcsin (clip (sin (deg2rad lat)) (-1) 1)) = lat.
Proof.
  intro H.
  rewrite clip_id by (pose proof (SIN_bound (deg2rad lat)); lra).
  unfold arcsin. rewrite asin_sin.
  - apply rad2deg_deg2rad.
  - pose proof (deg2rad_bounds lat (-90) 90 H) as Hb.
    replace (-90) with (- (90)) in Hb by lra.
    rewrite deg2rad_opp, deg2rad_90 in Hb. lra.
Qed.

(** Longitude survives the round trip away from the poles. *)
Lemma longitude_roundtrip lat lon :
  -90 < lat < 90 -> -180 < lon <= 180 ->
  rad2deg (arctan2 (cos (deg2rad lat) * sin (deg2rad lon))
                   (cos (deg2rad lat) * cos (deg2rad lon))) = lon.
Proof.
  intros [Hl1 Hl2] [Hn1 Hn2].
  assert (Hc : 0 < cos (deg2rad lat)).
  { apply cos_gt_0.
    - rewrite <- deg2rad_90, <- deg2rad_opp. apply deg2rad_lt. lra.
    - rewrite <- deg2rad_90. apply deg2rad_lt. lra. }
  rewrite arctan2_polar.
  - apply rad2deg_deg2rad.
  - exact Hc.
  - split.
    + rewrite <- deg2rad_180, <- deg2rad_opp. apply deg2rad_lt. lra.
    + rewrite <- deg2rad_180.
      apply (deg2rad_bounds lon lon 180). lra.
Qed.

(** ** The rotation matrix on real components *)

Lemma norm_vfin x y z : norm (vfin x y z) = Fin (sqrt (x * x + y * y + z * z)).
Proof. reflexivity. Qed.

Lemma sum_squares_zero x y z :
  x * x + y * y + z * z = 0 -> x = 0 /\ y = 0 /\ z = 0.
Proof. intro H. repeat split; nra. Qed.

Lemma norm_zero_inv x y z :
  sqrt (x * x + y * y + z * z) = 0 -> x = 0 /\ y = 0 /\ z = 0.
Proof.
  intro H. apply sum_squares_zero. apply sqrt_eq_0; [nra | exact H].
Qed.

Lemma rotation_matrix_zero_axis angle :
  rotation_matrix (vfin 0 0 0) angle = nan_mat.
Proof.
  unfold rotation_matrix. rewrite norm_vfin.
  unfold vfin, vdiv, fdiv.
  destruct (Req_dec_T (sqrt (0 * 0 + 0 * 0 + 0 * 0)) 0) as [_|H].
  - reflexivity.
  - exfalso. apply H. replace (0 * 0 + 0 * 0 + 0 * 0) with 0 by ring.
    apply sqrt_0.
Qed.

Lemma rotation_matrix_nonzero_axis x y z angle :
  let n := sqrt (x * x + y * y + z * z) in
  n <> 0 ->
  rotation_matrix (vfin x y z) angle = rodrigues (x / n) (y / n) (z / n) angle.
Proof.
  intros n Hn. unfold rotation_matrix. rewrite norm_vfin.
  unfold vfin, vdiv, fdiv. fold n.
  destruct (Req_dec_T n 0) as [H|_]; [contradiction|].
  reflexivity.
Qed.

Lemma spherical_unit lat lon :
  exists x y z, spherical_to_cartesian lat lon = vfin x y z
                /\ x * x + y * y + z * z = 1.
Proof.
  eexists _, _, _. split; [reflexivity|].
  set (a := deg2rad lat). set (b := deg2rad lon).
  pose proof (sin2_cos2 a). pose proof (sin2_cos2 b).
  unfold Rsqr in *. nra.
Qed.

Lemma normalized_unit x y z :
  let n := sqrt (x * x + y * y + z * z) in
  n <> 0 ->
  (x / n) * (x / n) + (y / n) * (y / n) + (z / n) * (z / n) = 1.
Proof.
  intros n Hn.
  assert (Hsq : n * n = x * x + y * y + z * z).
  { unfold n. apply sqrt_sqrt. nra. }
  field_simplify_eq; [|exact Hn]. nra.
Qed.

Lemma rodrigues_zero_angle x y z : rodrigues x y z 0 = identity.
Proof.
  unfold rodrigues, identity, vfin. rewrite cos_0, sin_0.
  repeat (f_equal; try ring).
Qed.

Lemma matmul_fin a b c d e f g h i a' b' c' d' e' f' g' h' i' :
  matmul (vfin a b c, vfin d e f, vfin g h i)
         (vfin a' b' c', vfin d' e' f', vfin g' h' i')
  = (vfin (a * a' + b * d' + c * g') (a * b' + b * e' + c * h')
          (a * c' + b * f' + c * i'),
     vfin (d * a' + e * d' + f * g') (d * b' + e * e' + f * h')
          (d * c' + e * f' + f * i'),
     vfin (g * a' + h * d' + i * g') (g * b' + h * e' + i * h')
          (g * c' + h * f' + i * i')).
Proof. reflexivity. Qed.

Lemma rodrigues_orthogonal x y z angle :
  x * x + y * y + z * z = 1 ->
  matmul (rodrigues x y z angle) (transpose (rodrigues x y z angle))
  = identity.
Proof.
  intro Hu. pose proof (sin2_cos2 angle) as Ht. unfold Rsqr in Ht.
  unfold rodrigues, identity, transpose, vfin, matmul, dot, fadd, fmul, lift2.
  set (c := cos angle) in *. set (s := sin angle) in *. clearbody c s.
  repeat apply (f_equal2 pair); apply (f_equal Fin); nsatz.
Qed.

Lemma radius_factor x y :
  x <> 0 ->
  sqrt (x * x + y * y) = Rabs x * sqrt (1 + (y / x)²).
Proof.
  intro Hx.
  assert (H1 : 0 < 1 + (y / x)²) by (pose proof (Rle_0_sqr (y / x)); lra).
  apply sqrt_lem_1.
  - nra.
  - apply Rmult_le_pos; [apply Rabs_pos | apply sqrt_pos].
  - transitivity ((Rabs x * Rabs x) * (sqrt (1 + (y / x)²) * sqrt (1 + (y / x)²))).
    + ring.
    + rewrite sqrt_sqrt by lra.
      replace (Rabs x * Rabs x) with (x * x).
      * unfold Rsqr. field. exact Hx.
      * unfold Rabs. destruct (Rcase_abs x); ring.
Qed.

Lemma cos_minus_PI a : cos (a - PI) = - cos a.
Proof. rewrite cos_minus, cos_PI, sin_PI. ring. Qed.

Lemma sin_minus_PI a : sin (a - PI) = - sin a.
Proof. rewrite sin_minus, cos_PI, sin_PI. ring. Qed.

(** A point other than the origin is its radius times the cosine and
    the sine of its [arctan2] angle. *)
Lemma arctan2_cos_sin x y :
  x <> 0 \/ y <> 0 ->
  x = sqrt (x * x + y * y) * cos (arctan2 y x)
  /\ y = sqrt (x * x + y * y) * sin (arctan2 y x).
Proof.
  intro Hne.
  destruct (Req_dec x 0) as [->|Hx].
  - assert (Hy : y <> 0) by (destruct Hne; [contradiction|assumption]).
    rewrite arctan2_zero_x.
    replace (0 * 0 + y * y) with (y * y) by ring.
    destruct (Rlt_dec 0 y) as [Hp|Hp].
    + rewrite sqrt_square by lra. rewrite cos_PI2, sin_PI2. lra.
    + destruct (Rlt_dec y 0) as [Hn|Hn]; [|lra].
      replace (y * y) with (- y * - y) by ring.
      rewrite sqrt_square by lra.
      rewrite cos_neg, sin_neg, cos_PI2, sin_PI2. lra.
  - rewrite (radius_factor x y Hx).
    set (t := y / x).
    assert (Ht : 0 < sqrt (1 + t²)).
    { apply sqrt_lt_R0. pose proof (Rle_0_sqr t). lra. }
    assert (Hy : y = x * t) by (unfold t; field; exact Hx).
    destruct (Rlt_dec 0 x) as [Hp|Hp].
    + rewrite arctan2_pos_x by exact Hp. fold t.
      rewrite cos_atan, sin_atan, Rabs_pos_eq by lra.
      split; [|rewrite Hy at 1]; field; lra.
    + assert (Hn : x < 0) by lra.
      rewrite (Rabs_left x Hn).
      destruct (Rle_dec 0 y) as [Hy0|Hy0].
      * rewrite arctan2_neg_x_nonneg_y by lra. fold t.
        rewrite neg_cos, neg_sin, cos_atan, sin_atan.
        split; [|rewrite Hy at 1]; field; lra.
      * rewrite arctan2_neg_x_neg_y by lra. fold t.
        rewrite cos_minus_PI, sin_minus_PI, cos_atan, sin_atan.
        split; [|rewrite Hy at 1]; field; lra.
Qed.

Lemma rad2deg_inj a b : rad2deg a = rad2deg b -> a = b.
Proof.
  intro H. rewrite <- (deg2rad_rad2deg a), <- (deg2rad_rad2deg b), H.
  reflexivity.
Qed.

(** On the unit sphere the conversion to latitude and longitude loses
    nothing. *)
Lemma cartesian_to_spherical_inj x y z x' y' z' :
  x * x + y * y + z * z = 1 ->
  x' * x' + y' * y' + z' * z' = 1 ->
  cartesian_to_spherical (vfin x y z) = cartesian_to_spherical (vfin x' y' z') ->
  x = x' /\ y = y' /\ z = z'.
Proof.
  intros Hu Hu' Heq. rewrite !cartesian_to_spherical_fin in Heq.
  injection Heq as Hlat Hlon.
  apply rad2deg_inj in Hlat, Hlon.
  assert (Hz : -1 <= z <= 1) by (split; nra).
  assert (Hz' : -1 <= z' <= 1) by (split; nra).
  rewrite !clip_id in Hlat by assumption. unfold arcsin in Hlat.
  assert (Ezz : z = z').
  { rewrite <- (sin_asin z Hz), <- (sin_asin z' Hz'), Hlat. reflexivity. }
  subst z'.
  assert (Hr : x * x + y * y = x' * x' + y' * y') by lra.
  destruct (Req_dec (x * x + y * y) 0) as [H0|H0].
  - assert (x = 0 /\ y = 0) as [-> ->] by (split; nra).
    assert (x' = 0 /\ y' = 0) as [-> ->] by (split; nra).
    auto.
  - assert (Hp : x <> 0 \/ y <> 0).
    { destruct (Req_dec x 0) as [->|]; [right|left; assumption].
      intros ->. apply H0. ring. }
    assert (Hp' : x' <> 0 \/ y' <> 0).
    { destruct (Req_dec x' 0) as [->|]; [right|left; assumption].
      intros ->. apply H0. rewrite Hr. ring. }
    destruct (arctan2_cos_sin x y Hp) as [Ex Ey].
    destruct (arctan2_cos_sin x' y' Hp') as [Ex' Ey'].
    rewrite <- Hr, <- Hlon in Ex', Ey'.
    repeat split; congruence.
Qed.

Lemma matvec_fin a b c d e f g h i p q r :
  matvec (vfin a b c, vfin d e f, vfin g h i) (vfin p q r)
  = vfin (a * p + b * q + c * r) (d * p + e * q + f * r)
         (g * p + h * q + i * r).
Proof. reflexivity. Qed.

Lemma rodrigues_preserves_norm x y z angle p q r :
  x * x + y * y + z * z = 1 ->
  exists p' q' r',
    matvec (rodrigues x y z angle) (vfin p q r) = vfin p' q' r'
    /\ p' * p' + q' * q' + r' * r' = p * p + q * q + r * r.
Proof.
  intro Hu. eexists _, _, _. split; [reflexivity|].
  pose proof (sin2_cos2 angle) as Ht. unfold Rsqr in Ht.
  set (c := cos angle) in *. set (s := sin angle) in *. clearbody c s.
  nsatz.
Qed.

(** Two rotations about the same unit axis that send a vector off the
    axis to the same place have the same cosine and sine. *)
Lemma rodrigues_same_image x y z p q r c1 s1 c2 s2 :
  x * x + y * y + z * z = 1 ->
  p * p + q * q + r * r - (x * p + y * q + z * r) * (x * p + y * q + z * r) <> 0 ->
  (c1 + x * x * (1 - c1)) * p + (x * y * (1 - c1) - z * s1) * q
    + (x * z * (1 - c1) + y * s1) * r
  = (c2 + x * x * (1 - c2)) * p + (x * y * (1 - c2) - z * s2) * q
    + (x * z * (1 - c2) + y * s2) * r ->
  (y * x * (1 - c1) + z * s1) * p + (c1 + y * y * (1 - c1)) * q
    + (y * z * (1 - c1) - x * s1) * r
  = (y * x * (1 - c2) + z * s2) * p + (c2 + y * y * (1 - c2)) * q
    + (y * z * (1 - c2) - x * s2) * r ->
  (z * x * (1 - c1) - y * s1) * p + (z * y * (1 - c1) + x * s1) * q
    + (c1 + z * z * (1 - c1)) * r
  = (z * x * (1 - c2) - y * s2) * p + (z * y * (1 - c2) + x * s2) * q
    + (c2 + z * z * (1 - c2)) * r ->
  c1 = c2 /\ s1 = s2.
Proof.
  intros Hu Hm E0 E1 E2.
  set (m := p * p + q * q + r * r
            - (x * p + y * q + z * r) * (x * p + y * q + z * r)) in *.
  assert (Hc : (c1 - c2) * m = 0) by (unfold m; nsatz).
  assert (Hs : (s1 - s2) * m = 0) by (unfold m; nsatz).
  apply Rmult_integral in Hc, Hs.
  split; [destruct Hc | destruct Hs]; lra || contradiction.
Qed.

(** Equal cosine and sine: the angles differ by whole turns. *)
Lemma same_cos_sin a b :
  cos a = cos b -> sin a = sin b -> exists k : Z, a - b = 2 * IZR k * PI.
Proof.
  intros Hc Hs.
  assert (H1 : cos (a - b) = 1).
  { rewrite cos_minus, Hc, Hs. pose proof (sin2_cos2 b) as H.
    unfold Rsqr in H. lra. }
  replace (a - b) with (2 * ((a - b) / 2)) in H1 by field.
  rewrite cos_2a_sin in H1.
  assert (H2 : sin ((a - b) / 2) = 0) by nra.
  destruct (sin_eq_0_0 _ H2) as [k Hk].
  exists k. lra.
Qed.

Lemma rotation_matrix_unit_axis (x y z angle : R) :
  x * x + y * y + z * z = 1 ->
  rotation_matrix (vfin x y z) angle = rodrigues x y z angle.
Proof.
  intro Hu.
  assert (Hn : sqrt (x * x + y * y + z * z) = 1) by (rewrite Hu; apply sqrt_1).
  rewrite rotation_matrix_nonzero_axis by lra.
  rewrite Hn. unfold Rdiv. rewrite Rinv_1, !Rmult_1_r. reflexivity.
Qed.

(** ** Checks on concrete inputs *)

(** The time axis of the specification's end-to-end scenario. *)
Example linspace_0_120_3 : linspace 0 120 3 = Returned [0; 60; 120].
Proof.
  unfold linspace. simpl. change (3 - 1)%Z with 2%Z.
  destruct (Req_dec_T ((120 - 0) / 2) 0) as [H|_]; [lra|].
  unfold set_last. simpl.
  do 2 f_equal; [lra|]. f_equal. lra.
Qed.

(** A quarter turn about the spin axis takes the point at longitude 0
    on the equator to longitude 90: the rotation is counter-clockwise
    seen from the tip of the axis. *)
Example quarter_turn_about_spin_axis :
  cartesian_to_spherical
    (matvec (rotation_matrix (vfin 0 0 1) (PI / 2)) (vfin 1 0 0))
  = (Fin 0, Fin 90).
Proof.
  assert (E : matvec (rotation_matrix (vfin 0 0 1) (PI / 2)) (vfin 1 0 0)
              = vfin 0 1 0).
  { rewrite rotation_matrix_unit_axis by ring.
    unfold rodrigues. rewrite matvec_fin, cos_PI2, sin_PI2. unfold vfin.
    repeat apply (f_equal2 pair); apply (f_equal Fin); ring. }
  rewrite E, cartesian_to_spherical_fin.
  rewrite clip_id by lra. unfold arcsin. rewrite asin_0.
  rewrite arctan2_zero_x.
  destruct (Rlt_dec 0 1) as [_|H]; [|lra].
  rewrite rad2deg_PI2. unfold rad2deg. rewrite Rmult_0_l. reflexivity.
Qed.

(** On a vector with a NaN component every coordinate that reads it
    is NaN. *)
Example cartesian_to_spherical_nan :
  cartesian_to_spherical nan_vec = (NaN, NaN).
Proof. reflexivity. Qed.

(** * The program in binary64 arithmetic: particular runs

    Facts on the embedding [B64]: how real numbers round to doubles, the
    values of the C library at a few arguments, and four runs of the
    program on doubles whose results differ from those of exact
    arithmetic. *)

Module B64Facts.
Import Floats.
Import B64.

Ltac float_eval t v := replace t with v by (vm_compute; reflexivity).

(** ** Rounding *)

Lemma F2R_one : F2R 1 = 1.
Proof.
  unfold F2R.
  replace (Prim2SF 1) with (S754_finite false 4503599627370496 (-52))
    by (vm_compute; reflexivity).
  simpl. field.
Qed.

Lemma round_R_0 : round_R 0 = 0%float.
Proof. unfold round_R. destruct (Req_dec_T 0 0); [reflexivity|lra]. Qed.

Lemma ln_2_pos : 0 < ln 2.
Proof. rewrite <- ln_1. apply ln_increasing; lra. Qed.

(** The binade of a positive real. *)
Lemma log2_floor (k : Z) (x : R) :
  powerRZ 2 k <= x < powerRZ 2 (k + 1) ->
  Zfloor (ln x / ln 2) = k.
Proof.
  intros [Hlo Hhi]. pose proof ln_2_pos as H2.
  assert (Hpk : forall z, powerRZ 2 z = exp (IZR z * ln 2)).
  { intro z. rewrite powerRZ_Rpower by lra. reflexivity. }
  assert (Hx : 0 < x).
  { eapply Rlt_le_trans; [|exact Hlo]. apply powerRZ_lt. lra. }
  apply Zfloor_eq. split.
  - apply Rmult_le_reg_r with (r := ln 2); [exact H2|].
    unfold Rdiv. rewrite Rmult_assoc, Rinv_l, Rmult_1_r by lra.
    rewrite <- (ln_exp (IZR k * ln 2)), <- Hpk.
    destruct Hlo as [Hlt|Heq]; [left; apply ln_increasing|right; f_equal];
      try assumption.
    apply powerRZ_lt. lra.
  - apply Rmult_lt_reg_r with (r := ln 2); [exact H2|].
    unfold Rdiv. rewrite Rmult_assoc, Rinv_l, Rmult_1_r by lra.
    replace ((IZR k + 1) * ln 2) with (IZR (k + 1) * ln 2)
      by (rewrite plus_IZR; ring).
    rewrite <- (ln_exp (IZR (k + 1) * ln 2)), <- Hpk.
    apply ln_increasing; assumption.
Qed.

Lemma nearest_even_eq (x : R) (n : Z) :
  IZR n - 1 / 2 < x < IZR n + 1 / 2 -> nearest_even x = n.
Proof.
  intros [Hlo Hhi]. unfold nearest_even.
  pose proof (Zfloor_bound x) as [Hf1 Hf2].
  assert (Hcases : Zfloor x = n \/ Zfloor x = (n - 1)%Z).
  { assert (H1 : (n - 1 <= Zfloor x)%Z).
    { apply Zfloor_lub. rewrite minus_IZR. lra. }
    assert (H2 : IZR (Zfloor x) < IZR (n + 1)) by (rewrite plus_IZR; lra).
    apply lt_IZR in H2. lia. }
  destruct Hcases as [E|E]; rewrite E in *.
  - destruct (Rlt_dec (x - IZR n) (1 / 2)); [reflexivity|lra].
  - rewrite minus_IZR in *.
    destruct (Rlt_dec (x - (IZR n - 1)) (1 / 2)); [lra|].
    destruct (Rlt_dec (1 / 2) (x - (IZR n - 1))); [lia|lra].
Qed.

(** Rounding in the binade just below 1 and at 1. *)
Lemma round_R_near_one (x : R) :
  1 - / 18014398509481984 < x <= 1 -> round_R x = 1%float.
Proof.
  intros [Hlo Hhi]. unfold round_R.
  destruct (Req_dec_T x 0) as [H0|_]; [lra|].
  destruct (Rlt_dec x 0) as [Hn|_]; [lra|].
  rewrite Rabs_pos_eq by lra.
  destruct (Req_dec x 1) as [->|Hne].
  - unfold ulp_exponent. rewrite Rabs_R1, ln_1.
    unfold Rdiv. rewrite Rmult_0_l. rewrite (ZfloorZ 0).
    change (Z.max (0 - 52) (-1074)) with (-52)%Z.
    rewrite (nearest_even_eq _ 4503599627370496)
      by (simpl; lra).
    vm_compute. reflexivity.
  - assert (He : ulp_exponent x = (-53)%Z).
    { unfold ulp_exponent. rewrite Rabs_pos_eq by lra.
      rewrite (log2_floor (-1)) by (simpl; lra). reflexivity. }
    rewrite He.
    rewrite (nearest_even_eq _ 9007199254740992) by (simpl; lra).
    vm_compute. reflexivity.
Qed.

Lemma round_R_1 : round_R 1 = 1%float.
Proof. apply round_R_near_one. lra. Qed.

Lemma PI_tight :
  3.14159265358979323 < PI < 3.14159265358979324.
Proof.
  pose proof (PI_2_3_7_ineq 9) as [Hlo Hhi].
  unfold sum_f_R0, tg_alt, PI_2_3_7_tg, Ratan_seq in Hlo, Hhi.
  simpl in Hlo, Hhi.
  split; lra.
Qed.

Lemma round_R_half_pi : round_R (PI / 2) = half_pi.
Proof.
  pose proof PI_tight as [Hlo Hhi]. unfold round_R.
  destruct (Req_dec_T (PI / 2) 0) as [H0|_]; [lra|].
  destruct (Rlt_dec (PI / 2) 0) as [Hn|_]; [lra|].
  rewrite Rabs_pos_eq by lra.
  assert (He : ulp_exponent (PI / 2) = (-52)%Z).
  { unfold ulp_exponent. rewrite Rabs_pos_eq by lra.
    rewrite (log2_floor 0) by (simpl; lra). reflexivity. }
  rewrite He.
  rewrite (nearest_even_eq _ 7074237752028440) by (simpl; lra).
  vm_compute. reflexivity.
Qed.

(** Rounding a positive real of known binade: [m] is the nearest
    multiple of the last place [2^e]. *)
Lemma round_R_near (x : R) (m e : Z) :
  (-1074 <= e)%Z ->
  powerRZ 2 (e + 52) <= x < powerRZ 2 (e + 53) ->
  IZR m - 1 / 2 < x * powerRZ 2 (- e) < IZR m + 1 / 2 ->
  round_R x = Z.ldexp (of_uint63 (Uint63.of_Z m)) e.
Proof.
  intros He [Hlo Hhi] Hm.
  assert (Hx : 0 < x).
  { eapply Rlt_le_trans; [|exact Hlo]. apply powerRZ_lt. lra. }
  assert (Hu : ulp_exponent x = e).
  { unfold ulp_exponent. rewrite Rabs_pos_eq by lra.
    rewrite (log2_floor (e + 52)); [lia|].
    split; [assumption|].
    replace (e + 52 + 1)%Z with (e + 53)%Z by lia. assumption. }
  unfold round_R.
  destruct (Req_dec_T x 0) as [H0|_]; [lra|].
  destruct (Rlt_dec x 0) as [Hn|_]; [lra|].
  rewrite Rabs_pos_eq by lra.
  rewrite Hu, (nearest_even_eq _ m Hm). reflexivity.
Qed.

Lemma round_R_opp (x : R) : 0 < x -> round_R (- x) = (- round_R x)%float.
Proof.
  intro Hx. unfold round_R.
  destruct (Req_dec_T (- x) 0) as [H0|_]; [lra|].
  destruct (Req_dec_T x 0) as [H0|_]; [lra|].
  destruct (Rlt_dec (- x) 0) as [_|Hn]; [|lra].
  destruct (Rlt_dec x 0) as [Hn|_]; [lra|].
  unfold ulp_exponent. rewrite Rabs_Ropp. reflexivity.
Qed.

(** Bounds on the sine, the cosine and the arc sine near 0. *)
Lemma sin_lower (x : R) : 0 <= x <= 1 -> x - x ^ 3 / 6 <= sin x.
Proof.
  intros [H0 H1]. pose proof PI_tight as [Hp _].
  destruct (SIN x H0 ltac:(lra)) as [Hlb _].
  unfold sin_lb, sin_approx, sin_term, sum_f_R0 in Hlb. simpl in Hlb.
  assert (H5 : 0 <= x ^ 5) by (apply pow_le; exact H0).
  assert (H2 : x * x <= 1) by nra.
  assert (H7 : x ^ 7 <= x ^ 5).
  { replace (x ^ 7) with (x ^ 5 * (x * x)) by ring. nra. }
  simpl in *. lra.
Qed.

Lemma cos_lower (x : R) : -1 <= x <= 1 -> 1 - x ^ 2 / 2 <= cos x.
Proof.
  intros [H0 H1]. pose proof PI_tight as [Hp _].
  destruct (COS x ltac:(lra) ltac:(lra)) as [Hlb _].
  unfold cos_lb, cos_approx, cos_term, sum_f_R0 in Hlb. simpl in Hlb.
  assert (H4 : 0 <= x ^ 4).
  { replace (x ^ 4) with ((x * x) * (x * x)) by ring. nra. }
  assert (H2 : x * x <= 1) by nra.
  assert (H6 : x ^ 6 <= x ^ 4).
  { replace (x ^ 6) with (x ^ 4 * (x * x)) by ring. nra. }
  simpl in *. lra.
Qed.

Lemma asin_small (x : R) : 0 < x <= 1 / 2 -> x < asin x <= x + x ^ 3.
Proof.
  intros [H0 H1]. pose proof PI_tight as [Hp _].
  pose proof (asin_bound x) as [Hb1 Hb2].
  assert (Hs : sin (asin x) = x) by (apply sin_asin; lra).
  split.
  - destruct (Rlt_dec x (asin x)) as [Hlt|Hge]; [exact Hlt|exfalso].
    destruct (Rle_dec (asin x) 0) as [Hneg|Hpos].
    + pose proof (sin_incr_1 (asin x) 0 Hb1 Hb2 ltac:(lra) ltac:(lra) Hneg)
        as Hle.
      rewrite sin_0 in Hle. lra.
    + pose proof (sin_lt_x (asin x) ltac:(lra)). lra.
  - destruct (Rle_dec (asin x) (x + x ^ 3)) as [Hle|Hgt]; [exact Hle|exfalso].
    assert (Hx2 : x * x <= 1 / 4) by nra.
    assert (Hx3 : 0 < x ^ 3 <= x / 4).
    { replace (x ^ 3) with (x * (x * x)) by ring.
      assert (Hxx : 0 < x * x) by (apply Rmult_lt_0_compat; assumption).
      split; [apply Rmult_lt_0_compat; assumption|].
      replace (x / 4) with (x * (1 / 4)) by field.
      apply Rmult_le_compat_l; lra. }
    assert (Hu1 : - (PI / 2) <= x + x ^ 3) by lra.
    assert (Hu2 : x + x ^ 3 <= PI / 2) by lra.
    assert (Hu3 : x + x ^ 3 < asin x) by lra.
    pose proof (sin_increasing_1 _ _ Hu1 Hu2 Hb1 Hb2 Hu3) as Hinc.
    assert (Hu4 : 0 <= x + x ^ 3 <= 1) by lra.
    pose proof (sin_lower _ Hu4) as Hlow.
    assert (Hcube : (x + x ^ 3) ^ 3 / 6 <= x ^ 3).
    { set (t := x * x) in *.
      replace ((x + x ^ 3) ^ 3) with (x ^ 3 * ((1 + t) * (1 + t) * (1 + t)))
        by (unfold t; ring).
      assert (Ht : 0 <= t) by (unfold t; nra).
      assert ((1 + t) * (1 + t) * (1 + t) <= 6) by nra.
      nra. }
    lra.
Qed.

(** ** Values of the C library at the arguments used below *)

Lemma F2R_0 : F2R 0 = 0.
Proof. unfold F2R. float_eval (Prim2SF 0) (S754_zero false). reflexivity. Qed.

Lemma np_cos_0 : np_cos 0 = 1%float.
Proof.
  unfold np_cos. float_eval (is_finite 0) true.
  rewrite F2R_0, cos_0. apply round_R_1.
Qed.

Lemma np_sin_0 : np_sin 0 = 0%float.
Proof. unfold np_sin. float_eval (is_zero 0) true. reflexivity. Qed.

Lemma np_arcsin_0 : np_arcsin 0 = 0%float.
Proof. unfold np_arcsin. float_eval (is_zero 0) true. reflexivity. Qed.

Lemma np_arcsin_1 : np_arcsin 1 = half_pi.
Proof.
  unfold np_arcsin. float_eval (is_zero 1) false.
  float_eval ((-1 <=? 1) && (1 <=? 1))%float true.
  rewrite F2R_one, asin_1. apply round_R_half_pi.
Qed.

(** 89.99999985 degrees in radians: [PI/2] less 2.6e-9.  Its sine is
    1 less 3.4e-18, and the nearest double is 1. *)

Lemma F2R_near_pole_rad :
  F2R near_pole_rad = 7074237740238043 / 4503599627370496.
Proof.
  unfold F2R.
  float_eval (Prim2SF near_pole_rad)
             (S754_finite false 7074237740238043 (-52)).
  simpl. field.
Qed.

Lemma np_sin_near_pole : np_sin near_pole_rad = 1%float.
Proof.
  unfold np_sin. float_eval (is_zero near_pole_rad) false.
  float_eval (is_finite near_pole_rad) true.
  rewrite F2R_near_pole_rad. apply round_R_near_one.
  pose proof PI_tight as [Hlo Hhi].
  set (q := 7074237740238043 / 4503599627370496).
  rewrite <- (cos_shift q).
  set (d := PI / 2 - q).
  assert (Hd : 0 < d < 3 / 1000000000) by (unfold d, q; lra).
  pose proof (cos_lower d ltac:(lra)) as Hc.
  pose proof (COS_bound d) as [_ Hub].
  assert (Hdd : d ^ 2 <= 9 / 1000000000000000000).
  { replace (d ^ 2) with (d * d) by ring. nra. }
  split; lra.
Qed.

(** 1.1e-7 degrees in radians, 1.9e-9: so small that its sine and the
    arc sine of that are the same double, and its cosine is 1. *)

Lemma F2R_tiny_rad :
  F2R tiny_rad = 4641941912222192 * powerRZ 2 (-81).
Proof.
  unfold F2R.
  float_eval (Prim2SF tiny_rad) (S754_finite false 4641941912222192 (-81)).
  rewrite Rmult_1_l. reflexivity.
Qed.

Lemma tiny_rad_bounds :
  19 / 10000000000 < F2R tiny_rad < 2 / 1000000000.
Proof. rewrite F2R_tiny_rad. simpl. lra. Qed.

Lemma round_R_tiny (x : R) :
  Rabs (x - F2R tiny_rad) < / 10 ^ 26 -> round_R x = tiny_rad.
Proof.
  intro Hx. apply Rabs_def2 in Hx. destruct Hx as [Hx1 Hx2].
  pose proof tiny_rad_bounds as [Hb1 Hb2].
  rewrite (round_R_near x 4641941912222192 (-81)).
  - vm_compute. reflexivity.
  - lia.
  - rewrite F2R_tiny_rad in *. simpl in *. lra.
  - rewrite F2R_tiny_rad in *. simpl in *. lra.
Qed.

Lemma np_sin_tiny : np_sin tiny_rad = tiny_rad.
Proof.
  unfold np_sin. float_eval (is_zero tiny_rad) false.
  float_eval (is_finite tiny_rad) true.
  apply round_R_tiny.
  pose proof tiny_rad_bounds as [Hb1 Hb2].
  set (q := F2R tiny_rad) in *.
  pose proof (sin_lower q ltac:(lra)) as Hlo.
  pose proof (sin_lt_x q ltac:(lra)) as Hhi.
  assert (Hq3 : q ^ 3 <= 8 / 10 ^ 27).
  { replace (q ^ 3) with (q * (q * q)) by ring.
    assert (q * q <= 4 / 10 ^ 18) by nra. nra. }
  apply Rabs_def1; simpl in *; lra.
Qed.

Lemma np_cos_tiny : np_cos tiny_rad = 1%float.
Proof.
  unfold np_cos. float_eval (is_finite tiny_rad) true.
  apply round_R_near_one.
  pose proof tiny_rad_bounds as [Hb1 Hb2].
  set (q := F2R tiny_rad) in *.
  pose proof (cos_lower q ltac:(lra)) as Hlo.
  pose proof (COS_bound q) as [_ Hub].
  assert (Hq2 : q ^ 2 <= 4 / 10 ^ 18).
  { replace (q ^ 2) with (q * q) by ring. nra. }
  split; simpl in *; lra.
Qed.

Lemma np_arcsin_tiny : np_arcsin tiny_rad = tiny_rad.
Proof.
  unfold np_arcsin. float_eval (is_zero tiny_rad) false.
  float_eval ((-1 <=? tiny_rad) && (tiny_rad <=? 1))%float true.
  apply round_R_tiny.
  pose proof tiny_rad_bounds as [Hb1 Hb2].
  set (q := F2R tiny_rad) in *.
  pose proof (asin_small q ltac:(lra)) as [Hlo Hhi].
  assert (Hq3 : q ^ 3 <= 8 / 10 ^ 27).
  { replace (q ^ 3) with (q * (q * q)) by ring.
    assert (q * q <= 4 / 10 ^ 18) by nra. nra. }
  apply Rabs_def1; simpl in *; lra.
Qed.

Lemma atan_small (t : R) : 0 < t <= 1 / 4 -> 0 < atan t < 2 * t.
Proof.
  intros [H0 H1]. pose proof PI_tight as [Hp _].
  split.
  - rewrite <- atan_0. apply atan_increasing. exact H0.
  - assert (Hc : 0 < cos (2 * t)) by (apply cos_gt_0; lra).
    pose proof (COS_bound (2 * t)) as [_ Hc1].
    assert (Hr : 0 <= 2 * t <= 1) by lra.
    pose proof (sin_lower (2 * t) Hr) as Hs.
    assert (Ht2 : t * t <= 1 / 16) by nra.
    assert (Ht3 : (2 * t) ^ 3 / 6 <= t / 2).
    { replace ((2 * t) ^ 3 / 6) with (t * (t * t * (4 / 3))) by field.
      replace (t / 2) with (t * (1 / 2)) by field.
      apply Rmult_le_compat_l; lra. }
    assert (Hsin : t < sin (2 * t)) by lra.
    assert (Htan : t < tan (2 * t)).
    { unfold tan. apply Rlt_le_trans with (1 := Hsin).
      apply Rmult_le_reg_r with (r := cos (2 * t)); [exact Hc|].
      unfold Rdiv. rewrite Rmult_assoc, Rinv_l, Rmult_1_r by lra.
      nra. }
    apply Rlt_le_trans with (atan (tan (2 * t))).
    + apply atan_increasing. exact Htan.
    + rewrite atan_tan by lra. lra.
Qed.

Lemma round_R_minus_pi (a : R) :
  0 <= a < / 10 ^ 16 -> round_R (- (PI - a)) = (- pi)%float.
Proof.
  intros [Ha0 Ha1]. pose proof PI_tight as [Hlo Hhi].
  rewrite round_R_opp by (simpl in *; lra).
  rewrite (round_R_near (PI - a) 7074237752028440 (-51)).
  - vm_compute. reflexivity.
  - lia.
  - simpl in *. lra.
  - simpl in *. lra.
Qed.


Lemma np_arctan2_west : np_arctan2 tiny_negative (-1) = (- pi)%float.
Proof.
  unfold np_arctan2.
  float_eval (Prim2SF tiny_negative)
             (S754_finite true 6646139978924579 (-119)).
  float_eval (Prim2SF (-1)) (S754_finite true 4503599627370496 (-52)).
  cbv beta iota.
  assert (Hy : F2R tiny_negative = - (6646139978924579 * powerRZ 2 (-119))).
  { unfold F2R.
    float_eval (Prim2SF tiny_negative)
               (S754_finite true 6646139978924579 (-119)).
    ring. }
  assert (Hx : F2R (-1) = -1).
  { unfold F2R.
    float_eval (Prim2SF (-1)) (S754_finite true 4503599627370496 (-52)).
    simpl. field. }
  rewrite Hy, Hx.
  set (t := 6646139978924579 * powerRZ 2 (-119)).
  assert (Ht : 0 < t < / 10 ^ 19) by (unfold t; simpl; lra).
  pose proof (atan_small t ltac:(simpl in *; lra)) as [Hat0 Hat1].
  unfold arctan2.
  destruct (Rlt_dec 0 (-1)) as [Hbad|_]; [lra|].
  destruct (Rlt_dec (-1) 0) as [_|Hbad]; [|lra].
  destruct (Rle_dec 0 (- t)) as [Hbad|_]; [lra|].
  replace (- t / -1) with t by (field; lra).
  replace (atan t - PI) with (- (PI - atan t)) by ring.
  apply round_R_minus_pi. simpl in *. lra.
Qed.

(** ** The program on particular doubles *)


Lemma spherical_to_cartesian_0_0 :
  spherical_to_cartesian 0 0 = (1, 0, 0)%float.
Proof.
  unfold spherical_to_cartesian.
  float_eval (np_deg2rad 0) 0%float.
  cbv zeta. rewrite np_cos_0, np_sin_0.
  vm_compute. reflexivity.
Qed.

Lemma spherical_to_cartesian_tiny :
  spherical_to_cartesian tiny_lat 0 = (1, 0, tiny_rad)%float.
Proof.
  unfold spherical_to_cartesian.
  float_eval (np_deg2rad 0) 0%float.
  float_eval (np_deg2rad tiny_lat) tiny_rad.
  cbv zeta. rewrite np_cos_0, np_sin_0, np_cos_tiny, np_sin_tiny.
  vm_compute. reflexivity.
Qed.

Lemma rotation_matrix_x_0 :
  rotation_matrix (1, 0, 0)%float 0 =
  ((1, 0, 0), (0, 1, 0), (0, 0, 1))%float.
Proof.
  unfold rotation_matrix.
  float_eval (vdiv (1, 0, 0)%float (norm (1, 0, 0)%float)) (1, 0, 0)%float.
  cbv beta iota zeta. rewrite np_cos_0, np_sin_0.
  vm_compute. reflexivity.
Qed.

Lemma cartesian_to_spherical_tiny :
  cartesian_to_spherical (1, 0, tiny_rad)%float = (tiny_lat_back, 0)%float.
Proof.
  unfold cartesian_to_spherical.
  float_eval (np_clip tiny_rad (-1) 1) tiny_rad.
  rewrite np_arcsin_tiny.
  float_eval (np_arctan2 0 1) 0%float.
  vm_compute. reflexivity.
Qed.

Lemma cartesian_to_spherical_north :
  cartesian_to_spherical (0, 0, 1)%float = (90, 0)%float.
Proof.
  unfold cartesian_to_spherical.
  float_eval (np_clip 1 (-1) 1) 1%float.
  rewrite np_arcsin_1.
  float_eval (np_arctan2 0 0) 0%float.
  vm_compute. reflexivity.
Qed.

Lemma loop_single (axis cv pv : vec) (angle : float) :
  fold_left (loop_body axis cv pv) (enumerate [angle]) (zeros 1, zeros 1) =
  ([cartesian_to_spherical (matvec (rotation_matrix axis angle) cv)],
   [cartesian_to_spherical
      (matvec (transpose (rotation_matrix axis angle)) pv)]).
Proof. reflexivity. Qed.

(** ** Four runs *)





End B64Facts.

(** ** Properties of the simulator *)

(** C1.  At every time step [i] the continent coordinates are the
    spherical conversion of [R] applied to the present-day reference unit
    vector, and the apparent-pole coordinates are the spherical conversion
    of the transpose of [R] applied to the spin axis [(0, 0, 1)], where [R]
    is the rotation matrix about the axis vector for the angle
    [angular_velocity * time[i]] converted to radians: the total angle
    since the present, with no composition of incremental rotations. *)
Theorem simulate_step_from_total_angle
    (params : PlateMotionParameters) (lat lon : R) :
  (0 <= time_steps params)%Z ->
  exists result,
    simulate_plate_motion params lat lon = Returned result
    /\ forall i : nat,
        (i < Z.to_nat (time_steps params))%nat ->
        exists t,
          time_myr result !! i = Some t
          /\ let rot :=
               rotation_matrix
                 (spherical_to_cartesian (rotation_axis_lat params)
                                         (rotation_axis_lon params))
                 (deg2rad (angular_velocity_deg_per_myr params * t)) in
             continent_lat_lon result !! i
             = Some (cartesian_to_spherical
                       (matvec rot (spherical_to_cartesian lat lon)))
             /\ apparent_pole_lat_lon result !! i
                = Some (cartesian_to_spherical
                          (matvec (transpose rot) (vfin 0 0 1))).
Proof.
  intro Hn.
  destruct (linspace_returns 0 (total_time_myr params) _ Hn)
    as (time & Htime & Hlen).
  eexists. split; [apply simulate_returned; exact Htime|].
  intros i Hi. simpl.
  destruct (lookup_lt_is_Some_2 time i) as [t Ht]; [lia|].
  exists t. split; [exact Ht|].
  rewrite !list_lookup_fmap, Ht. split; reflexivity.
Qed.

Lemma simulate_step_from_total_angle_witness :
  exists result,
    simulate_plate_motion default_params 30 (-20) = Returned result
    /\ forall i : nat,
        (i < Z.to_nat (time_steps default_params))%nat ->
        exists t,
          time_myr result !! i = Some t
          /\ let rot :=
               rotation_matrix
                 (spherical_to_cartesian (rotation_axis_lat default_params)
                                         (rotation_axis_lon default_params))
                 (deg2rad (angular_velocity_deg_per_myr default_params * t)) in
             continent_lat_lon result !! i
             = Some (cartesian_to_spherical
                       (matvec rot (spherical_to_cartesian 30 (-20))))
             /\ apparent_pole_lat_lon result !! i
                = Some (cartesian_to_spherical
                          (matvec (transpose rot) (vfin 0 0 1))).
Proof.
  apply (simulate_step_from_total_angle default_params 30 (-20)).
  simpl. lia.
Defined.



(** C10.  The apparent-pole track does not depend on the continental
    reference point: with the same parameters, two runs from two
    reference points either both raise the same exception or both return,
    with identical time sequences and identical apparent-pole sequences. *)
Theorem apparent_pole_independent_of_reference
    (params : PlateMotionParameters) (lat1 lon1 lat2 lon2 : R) :
  match simulate_plate_motion params lat1 lon1,
        simulate_plate_motion params lat2 lon2 with
  | Returned r1, Returned r2 =>
      time_myr r1 = time_myr r2
      /\ apparent_pole_lat_lon r1 = apparent_pole_lat_lon r2
  | Raised e1, Raised e2 => e1 = e2
  | _, _ => False
  end.
Proof.
  destruct (Z.lt_ge_cases (time_steps params) 0) as [Hn|Hn].
  - rewrite !simulate_raised by exact Hn. reflexivity.
  - destruct (linspace_returns 0 (total_time_myr params) _ Hn)
      as (time & Htime & _).
    rewrite !(simulate_returned _ _ _ time Htime). simpl. auto.
Qed.

(** ** Error handling *)

(** C3, counterexample.  A sample count of 0 is below 1, and the run
    returns the empty result instead of failing with
    [InvalidParameters]. *)
Lemma zero_samples_not_rejected :
  let params :=
    {| angular_velocity_deg_per_myr := 1 / 2;
       rotation_axis_lat := 60;
       rotation_axis_lon := -90;
       total_time_myr := 120;
       time_steps := 0 |} in
  (time_steps params < 1)%Z
  /\ simulate_plate_motion params 30 (-20) = Returned empty_result
  /\ simulate_plate_motion params 30 (-20) <> Raised InvalidParameters.
Proof.
  simpl. split; [lia|]. split; [reflexivity|discriminate].
Qed.

(** C3, amended.  With a sample count below 1 nothing is validated:
    a count of 0 returns the result whose three sequences are empty, and a
    negative count fails with the [ValueError] of [np.linspace]. *)
Theorem nonpositive_sample_count
    (params : PlateMotionParameters) (lat lon : R) :
  (time_steps params < 1)%Z ->
  simulate_plate_motion params lat lon
  = if (time_steps params =? 0)%Z then Returned empty_result
    else Raised ValueError.
Proof.
  intro H. destruct (Z.eqb_spec (time_steps params) 0) as [E|E].
  - rewrite (simulate_returned _ _ _ []) by (rewrite E; reflexivity).
    reflexivity.
  - apply simulate_raised. lia.
Qed.

Lemma nonpositive_sample_count_witness :
  simulate_plate_motion
    {| angular_velocity_deg_per_myr := 1 / 2;
       rotation_axis_lat := 60;
       rotation_axis_lon := -90;
       total_time_myr := 120;
       time_steps := -3 |} 30 (-20)
  = Raised ValueError.
Proof.
  apply (nonpositive_sample_count
           {| angular_velocity_deg_per_myr := 1 / 2;
              rotation_axis_lat := 60;
              rotation_axis_lon := -90;
              total_time_myr := 120;
              time_steps := -3 |} 30 (-20)).
  simpl. lia.
Defined.

Lemma spherical_norm (lat lon : R) :
  norm (spherical_to_cartesian lat lon) = Fin 1.
Proof.
  destruct (spherical_unit lat lon) as (x & y & z & -> & Hu).
  rewrite norm_vfin, Hu, sqrt_1. reflexivity.
Qed.

(** C2, counterexample.  The zero vector has length 0, and
    [rotation_matrix] returns on it, with every entry NaN: the division
    by the zero norm is silent, and no [InvalidAxis] error exists on the
    path.  Besides, on an axis of length 1 a run with a negative sample
    count does not succeed. *)
Lemma zero_axis_divides_silently :
  norm (vfin 0 0 0) = Fin 0
  /\ rotation_matrix (vfin 0 0 0) 0 = nan_mat
  /\ norm (spherical_to_cartesian 60 (-90)) = Fin 1
  /\ simulate_plate_motion
       {| angular_velocity_deg_per_myr := 1 / 2;
          rotation_axis_lat := 60;
          rotation_axis_lon := -90;
          total_time_myr := 120;
          time_steps := -1 |} 30 (-20)
     = Raised ValueError.
Proof.
  split; [|split; [|split]].
  - rewrite norm_vfin. f_equal.
    replace (0 * 0 + 0 * 0 + 0 * 0) with 0 by ring. apply sqrt_0.
  - apply rotation_matrix_zero_axis.
  - apply spherical_norm.
  - reflexivity.
Qed.

(** C2, amended.  [rotation_matrix] checks nothing: on every axis of
    length 0 it returns the all-NaN matrix.  The axis that the simulator
    builds from the axis latitude and longitude always has length 1, so a
    run never meets that case: it returns a complete result, with the
    three sequences of the configured length, whenever the sample count
    is not negative, and raises [ValueError] otherwise. *)
Theorem axis_never_rejected :
  (forall x y z angle : R,
      norm (vfin x y z) = Fin 0 ->
      rotation_matrix (vfin x y z) angle = nan_mat)
  /\ (forall lat lon : R, norm (spherical_to_cartesian lat lon) = Fin 1)
  /\ (forall (params : PlateMotionParameters) (lat lon : R),
         match simulate_plate_motion params lat lon with
         | Returned result =>
             Z.of_nat (length (time_myr result)) = time_steps params
             /\ Z.of_nat (length (continent_lat_lon result))
                = time_steps params
             /\ Z.of_nat (length (apparent_pole_lat_lon result))
                = time_steps params
         | Raised e => e = ValueError /\ (time_steps params < 0)%Z
         end).
Proof.
  split; [|split].
  - intros x y z angle Hn. rewrite norm_vfin in Hn. injection Hn as Hn.
    destruct (norm_zero_inv x y z Hn) as (-> & -> & ->).
    apply rotation_matrix_zero_axis.
  - apply spherical_norm.
  - intros params lat lon.
    destruct (Z.lt_ge_cases (time_steps params) 0) as [Hn|Hn].
    + rewrite simulate_raised by exact Hn. auto.
    + destruct (linspace_returns 0 (total_time_myr params) _ Hn)
        as (time & Htime & Hlen).
      rewrite (simulate_returned _ _ _ time Htime). simpl.
      rewrite !length_map, Hlen. lia.
Qed.

Lemma axis_never_rejected_witness :
  rotation_matrix (vfin 0 0 0) (PI / 3) = nan_mat.
Proof.
  apply (proj1 axis_never_rejected 0 0 0 (PI / 3)).
  rewrite norm_vfin. f_equal.
  replace (0 * 0 + 0 * 0 + 0 * 0) with 0 by ring. apply sqrt_0.
Defined.

(** ** Coordinate conversion and rotation *)


Lemma transpose_rodrigues (x y z angle : R) :
  transpose (rodrigues x y z angle) = rodrigues x y z (- angle).
Proof.
  unfold rodrigues, transpose, vfin. rewrite cos_neg, sin_neg.
  repeat apply (f_equal2 pair); apply (f_equal Fin); ring.
Qed.

Lemma transpose_involutive (m : mat) : transpose (transpose m) = m.
Proof. destruct m as [[[[a b] c] [[d e] f]] [[g h] i]]. reflexivity. Qed.




(** In exact arithmetic the conversion to a unit vector and back returns
    the latitude, and the longitude too away from the poles. *)
Lemma conversion_roundtrip_exact (lat lon : R) :
  -90 <= lat <= 90 ->
  -180 < lon <= 180 ->
  exists lon' : R,
    cartesian_to_spherical (spherical_to_cartesian lat lon)
    = (Fin lat, Fin lon')
    /\ (-90 < lat < 90 -> lon' = lon).
Proof.
  intros Hlat Hlon. eexists. split.
  - unfold spherical_to_cartesian. rewrite cartesian_to_spherical_fin.
    rewrite latitude_roundtrip by exact Hlat. reflexivity.
  - intro Hin. apply longitude_roundtrip; assumption.
Qed.

(** At a pole the vector is [(0, 0, 1)] or [(0, 0, -1)] whatever the
    longitude, and the longitude that comes back is 0. *)
Lemma conversion_at_pole (lat lon : R) :
  lat = 90 \/ lat = -90 ->
  cartesian_to_spherical (spherical_to_cartesian lat lon) = (Fin lat, Fin 0).
Proof.
  intro Hp.
  assert (Hc : cos (deg2rad lat) = 0).
  { destruct Hp as [-> | ->].
    - rewrite deg2rad_90. apply cos_PI2.
    - unfold deg2rad.
      replace (-90 * (PI / 180)) with (- (PI / 2)) by field.
      rewrite cos_neg. apply cos_PI2. }
  unfold spherical_to_cartesian. rewrite cartesian_to_spherical_fin.
  rewrite latitude_roundtrip by (destruct Hp; lra).
  rewrite Hc, !Rmult_0_l, arctan2_zero_x.
  destruct (Rlt_dec 0 0) as [H|_]; [lra|].
  unfold rad2deg. rewrite Rmult_0_l. reflexivity.
Qed.



Lemma linspace_single (stop : R) : linspace 0 stop 1 = Returned [0].
Proof.
  rewrite linspace_1. do 2 f_equal. ring.
Qed.

Lemma deg2rad_0 : deg2rad 0 = 0.
Proof. unfold deg2rad. ring. Qed.

Lemma matvec_identity (x y z : R) :
  matvec identity (vfin x y z) = vfin x y z.
Proof.
  unfold identity. rewrite matvec_fin. unfold vfin.
  repeat apply (f_equal2 pair); apply (f_equal Fin); ring.
Qed.

Lemma transpose_identity : transpose identity = identity.
Proof. reflexivity. Qed.

Lemma rotation_matrix_present (lat lon : R) :
  rotation_matrix (spherical_to_cartesian lat lon) 0 = identity.
Proof.
  destruct (spherical_unit lat lon) as (x & y & z & -> & Hu).
  rewrite rotation_matrix_unit_axis by exact Hu.
  apply rodrigues_zero_angle.
Qed.

Lemma spin_axis_coordinates :
  exists lon : R, cartesian_to_spherical (vfin 0 0 1) = (Fin 90, Fin lon).
Proof.
  eexists. rewrite cartesian_to_spherical_fin.
  rewrite clip_id by lra. unfold arcsin. rewrite asin_1, rad2deg_PI2.
  reflexivity.
Qed.

(** The run with one sample and no elapsed time, whatever the
    reference point. *)
Lemma simulate_single_sample (params : PlateMotionParameters) (lat lon : R) :
  time_steps params = 1%Z ->
  total_time_myr params = 0 ->
  simulate_plate_motion params lat lon
  = Returned
      {| time_myr := [0];
         continent_lat_lon :=
           [cartesian_to_spherical (spherical_to_cartesian lat lon)];
         apparent_pole_lat_lon := [cartesian_to_spherical (vfin 0 0 1)] |}.
Proof.
  intros Hn HT.
  rewrite (simulate_returned _ _ _ [0])
    by (rewrite Hn, HT; apply linspace_single).
  cbn [map]. unfold continent_at, apparent_pole_at.
  rewrite Rmult_0_r, deg2rad_0, rotation_matrix_present, transpose_identity.
  unfold spherical_to_cartesian. rewrite !matvec_identity. reflexivity.
Qed.



(** ** Motion of the continent *)

Lemma rodrigues_fixes_axis (x y z angle : R) :
  x * x + y * y + z * z = 1 ->
  matvec (rodrigues x y z angle) (vfin x y z) = vfin x y z.
Proof.
  intro Hu. unfold rodrigues. rewrite matvec_fin. unfold vfin.
  set (c := cos angle). set (s := sin angle). clearbody c s.
  repeat apply (f_equal2 pair); apply (f_equal Fin); nsatz.
Qed.

(** A reference point at the Euler pole stays there at every angle. *)
Lemma continent_at_pole_fixed (lat lon angle : R) :
  continent_at (spherical_to_cartesian lat lon)
               (spherical_to_cartesian lat lon) angle
  = cartesian_to_spherical (spherical_to_cartesian lat lon).
Proof.
  unfold continent_at.
  destruct (spherical_unit lat lon) as (x & y & z & E & Hu).
  rewrite E, rotation_matrix_unit_axis, rodrigues_fixes_axis by exact Hu.
  reflexivity.
Qed.

Lemma not_multiple_of_360 (d : R) :
  0 < d < 360 -> forall k : Z, d <> 360 * IZR k.
Proof.
  intros Hd k Hk.
  destruct (Z_le_gt_dec k 0) as [Hle|Hgt].
  - apply IZR_le in Hle. lra.
  - assert (1 <= k)%Z as Hge by lia. apply IZR_le in Hge. lra.
Qed.


Lemma off_axis_margin (x y z p q r : R) :
  x * x + y * y + z * z = 1 ->
  p * p + q * q + r * r = 1 ->
  vfin p q r <> vfin x y z ->
  vfin p q r <> antipode (vfin x y z) ->
  p * p + q * q + r * r - (x * p + y * q + z * r) * (x * p + y * q + z * r)
  <> 0.
Proof.
  intros Hu Hv Hne Hanti Hm.
  set (d := x * p + y * q + z * r) in *.
  assert (Hd : (d - 1) * (d + 1) = 0) by nra.
  apply Rmult_integral in Hd. destruct Hd as [Hd|Hd].
  - apply Hne.
    assert (Hs : (p - x) * (p - x) + (q - y) * (q - y) + (r - z) * (r - z) = 0)
      by (unfold d in Hd; nra).
    apply sum_squares_zero in Hs. destruct Hs as (? & ? & ?).
    unfold vfin. repeat f_equal; lra.
  - apply Hanti.
    assert (Hs : (p + x) * (p + x) + (q + y) * (q + y) + (r + z) * (r + z) = 0)
      by (unfold d in Hd; nra).
    apply sum_squares_zero in Hs. destruct Hs as (? & ? & ?).
    unfold vfin, antipode, lift1. repeat f_equal; lra.
Qed.

(** Off the axis, equal continent coordinates force rotation angles
    that differ by whole turns. *)
Lemma continent_at_same_position (alat alon lat lon a b : R) :
  spherical_to_cartesian lat lon <> spherical_to_cartesian alat alon ->
  spherical_to_cartesian lat lon
  <> antipode (spherical_to_cartesian alat alon) ->
  continent_at (spherical_to_cartesian alat alon)
               (spherical_to_cartesian lat lon) a
  = continent_at (spherical_to_cartesian alat alon)
                 (spherical_to_cartesian lat lon) b ->
  exists k : Z, a - b = 2 * IZR k * PI.
Proof.
  unfold continent_at.
  destruct (spherical_unit alat alon) as (x & y & z & Ea & Hu).
  destruct (spherical_unit lat lon) as (p & q & r & Ev & Hv).
  rewrite Ea, Ev. intros Hne Hanti Heq.
  rewrite !rotation_matrix_unit_axis in Heq by exact Hu.
  destruct (rodrigues_preserves_norm x y z a p q r Hu)
    as (p1 & q1 & r1 & E1 & N1).
  destruct (rodrigues_preserves_norm x y z b p q r Hu)
    as (p2 & q2 & r2 & E2 & N2).
  rewrite E1, E2 in Heq.
  apply cartesian_to_spherical_inj in Heq; [|lra|lra].
  destruct Heq as (<- & <- & <-).
  unfold rodrigues in E1, E2. rewrite matvec_fin in E1, E2.
  injection E1 as X1 Y1 Z1. injection E2 as X2 Y2 Z2.
  destruct (rodrigues_same_image x y z p q r (cos a) (sin a) (cos b) (sin b))
    as [Hc Hs]; try congruence.
  - apply off_axis_margin; assumption.
  - apply same_cos_sin; assumption.
Qed.


Lemma spherical_0_0 : spherical_to_cartesian 0 0 = vfin 1 0 0.
Proof.
  unfold spherical_to_cartesian, vfin. rewrite deg2rad_0, cos_0, sin_0.
  repeat apply (f_equal2 pair); apply (f_equal Fin); ring.
Qed.

Lemma spherical_0_90 : spherical_to_cartesian 0 90 = vfin 0 1 0.
Proof.
  unfold spherical_to_cartesian, vfin.
  rewrite deg2rad_0, deg2rad_90, cos_0, sin_0, cos_PI2, sin_PI2.
  repeat apply (f_equal2 pair); apply (f_equal Fin); ring.
Qed.


(** ** Further properties of the conversions *)

Lemma cos_period_Z (x : R) (k : Z) : cos (x + 2 * IZR k * PI) = cos x.
Proof.
  destruct (Z_le_gt_dec 0 k) as [Hk|Hk].
  - rewrite <- (Z2Nat.id k Hk), <- INR_IZR_INZ. apply cos_period.
  - rewrite <- (cos_period (x + 2 * IZR k * PI) (Z.to_nat (- k))).
    rewrite INR_IZR_INZ, Z2Nat.id by lia. rewrite opp_IZR. f_equal. ring.
Qed.

Lemma sin_period_Z (x : R) (k : Z) : sin (x + 2 * IZR k * PI) = sin x.
Proof.
  destruct (Z_le_gt_dec 0 k) as [Hk|Hk].
  - rewrite <- (Z2Nat.id k Hk), <- INR_IZR_INZ. apply sin_period.
  - rewrite <- (sin_period (x + 2 * IZR k * PI) (Z.to_nat (- k))).
    rewrite INR_IZR_INZ, Z2Nat.id by lia. rewrite opp_IZR. f_equal. ring.
Qed.

Lemma deg2rad_plus (a b : R) : deg2rad (a + b) = deg2rad a + deg2rad b.
Proof. unfold deg2rad. ring. Qed.

Lemma deg2rad_turns (k : Z) : deg2rad (360 * IZR k) = 2 * IZR k * PI.
Proof. unfold deg2rad. field. Qed.

(** X1.  In exact arithmetic, coordinates outside the geographic
    ranges wrap: adding whole turns to the longitude does not change the
    vector, and going over a pole (latitude [180 - lat]) is the same as
    staying at latitude [lat] on the opposite meridian. *)
Theorem spherical_to_cartesian_wraps (lat lon : R) (k : Z) :
  spherical_to_cartesian lat (lon + 360 * IZR k)
  = spherical_to_cartesian lat lon
  /\ spherical_to_cartesian (180 - lat) (lon + 180)
     = spherical_to_cartesian lat lon.
Proof.
  unfold spherical_to_cartesian, vfin. split.
  - rewrite deg2rad_plus, deg2rad_turns, cos_period_Z, sin_period_Z.
    reflexivity.
  - replace (deg2rad (180 - lat)) with (PI - deg2rad lat)
      by (unfold deg2rad; field).
    rewrite deg2rad_plus, deg2rad_180.
    rewrite neg_cos, neg_sin, sin_PI_x.
    rewrite Rtrigo_facts.cos_pi_minus.
    repeat apply (f_equal2 pair); apply (f_equal Fin); ring.
Qed.

(** On a vector of length 1 the angles that the conversion reads off
    give the vector back. *)
Lemma unit_vector_angles (x y z : R) :
  x * x + y * y + z * z = 1 ->
  spherical_to_cartesian (rad2deg (arcsin (clip z (-1) 1)))
                         (rad2deg (arctan2 y x))
  = vfin x y z.
Proof.
  intro Hu.
  assert (Hz : -1 <= z <= 1) by (split; nra).
  unfold spherical_to_cartesian. rewrite !deg2rad_rad2deg.
  rewrite clip_id by exact Hz. unfold arcsin.
  rewrite sin_asin, cos_asin by exact Hz.
  replace (1 - z²) with (x * x + y * y) by (unfold Rsqr; lra).
  destruct (Req_dec (x * x + y * y) 0) as [H0|H0].
  - assert (x = 0 /\ y = 0) as [-> ->] by (split; nra).
    rewrite H0, sqrt_0. unfold vfin.
    repeat apply (f_equal2 pair); apply (f_equal Fin); ring.
  - assert (Hp : x <> 0 \/ y <> 0).
    { destruct (Req_dec x 0) as [->|]; [right|left; assumption].
      intros ->. apply H0. ring. }
    destruct (arctan2_cos_sin x y Hp) as [Ex Ey].
    rewrite <- Ex, <- Ey. reflexivity.
Qed.

(** X2.  On a vector of length 1, converting to latitude and longitude
    and back gives the vector again, the two poles included. *)
Theorem cartesian_spherical_cartesian (x y z : R) :
  x * x + y * y + z * z = 1 ->
  exists lat lon : R,
    cartesian_to_spherical (vfin x y z) = (Fin lat, Fin lon)
    /\ spherical_to_cartesian lat lon = vfin x y z.
Proof.
  intro Hu. eexists _, _.
  split; [apply cartesian_to_spherical_fin|].
  apply unit_vector_angles. exact Hu.
Qed.

Lemma cartesian_spherical_cartesian_witness :
  exists lat lon : R,
    cartesian_to_spherical (vfin (3 / 5) 0 (4 / 5)) = (Fin lat, Fin lon)
    /\ spherical_to_cartesian lat lon = vfin (3 / 5) 0 (4 / 5).
Proof.
  apply (cartesian_spherical_cartesian (3 / 5) 0 (4 / 5)). lra.
Defined.

(** X3.  The clamp saturates the latitude: a third component of 1 or
    more gives latitude 90 exactly, and one of -1 or less gives -90. *)
Theorem latitude_saturates (x y z : R) :
  1 <= Rabs z ->
  fst (cartesian_to_spherical (vfin x y z))
  = Fin (if Rlt_dec 0 z then 90 else -90).
Proof.
  intro Hz. rewrite cartesian_to_spherical_fin. simpl. f_equal.
  unfold clip, arcsin.
  destruct (Rlt_dec 0 z) as [Hp|Hn].
  - rewrite Rabs_pos_eq in Hz by lra.
    rewrite Rmax_left, Rmin_right by lra.
    rewrite asin_1. apply rad2deg_PI2.
  - assert (Hle : z <= -1).
    { unfold Rabs in Hz. destruct (Rcase_abs z); lra. }
    rewrite Rmax_right, Rmin_left by lra.
    replace (-1) with (- (1)) by ring.
    rewrite asin_opp, asin_1, rad2deg_opp, rad2deg_PI2. ring.
Qed.

Lemma latitude_saturates_witness :
  fst (cartesian_to_spherical (vfin 1 2 3))
  = Fin (if Rlt_dec 0 3 then 90 else -90).
Proof.
  apply (latitude_saturates 1 2 3).
  rewrite Rabs_pos_eq; lra.
Defined.

(** ** Further properties of the rotation matrix *)

Lemma sqrt_scaled (k x y z : R) :
  0 <= k ->
  sqrt (k * x * (k * x) + k * y * (k * y) + k * z * (k * z))
  = k * sqrt (x * x + y * y + z * z).
Proof.
  intro Hk.
  replace (k * x * (k * x) + k * y * (k * y) + k * z * (k * z))
    with ((k * k) * (x * x + y * y + z * z)) by ring.
  rewrite sqrt_mult by nra. rewrite sqrt_square by exact Hk. reflexivity.
Qed.

Lemma nonzero_norm (x y z : R) :
  x <> 0 \/ y <> 0 \/ z <> 0 -> sqrt (x * x + y * y + z * z) <> 0.
Proof. intros Hne H0. apply norm_zero_inv in H0. lra. Qed.

Lemma transpose_nan : transpose nan_mat = nan_mat.
Proof. reflexivity. Qed.

(** X4.  In exact arithmetic only the direction of the axis counts:
    stretching the axis by a positive factor leaves the matrix
    unchanged.  (Not so in binary64 once the squared length of the axis
    underflows or overflows.) *)
Theorem rotation_matrix_axis_scale (k x y z angle : R) :
  0 < k ->
  rotation_matrix (vfin (k * x) (k * y) (k * z)) angle
  = rotation_matrix (vfin x y z) angle.
Proof.
  intro Hk. set (n := sqrt (x * x + y * y + z * z)).
  destruct (Req_dec n 0) as [H0|H0].
  - apply norm_zero_inv in H0. destruct H0 as (-> & -> & ->).
    rewrite !Rmult_0_r. reflexivity.
  - assert (Hkn : sqrt (k * x * (k * x) + k * y * (k * y) + k * z * (k * z))
                  = k * n) by (apply sqrt_scaled; lra).
    rewrite (rotation_matrix_nonzero_axis (k * x)) by (rewrite Hkn; nra).
    rewrite (rotation_matrix_nonzero_axis x) by exact H0.
    rewrite Hkn. fold n.
    replace (k * x / (k * n)) with (x / n) by (field; lra).
    replace (k * y / (k * n)) with (y / n) by (field; lra).
    replace (k * z / (k * n)) with (z / n) by (field; lra).
    reflexivity.
Qed.

Lemma rotation_matrix_axis_scale_witness :
  rotation_matrix (vfin (2 * 0) (2 * 3) (2 * 4)) (PI / 3)
  = rotation_matrix (vfin 0 3 4) (PI / 3).
Proof.
  apply (rotation_matrix_axis_scale 2 0 3 4 (PI / 3)). lra.
Defined.

(** X5.  Reversing the axis, or the sign of the angle, gives the
    transposed matrix: the rotation the other way round. *)
Theorem rotation_matrix_reversed (x y z angle : R) :
  rotation_matrix (vfin (- x) (- y) (- z)) angle
  = transpose (rotation_matrix (vfin x y z) angle)
  /\ rotation_matrix (vfin x y z) (- angle)
     = transpose (rotation_matrix (vfin x y z) angle).
Proof.
  set (n := sqrt (x * x + y * y + z * z)).
  destruct (Req_dec n 0) as [H0|H0].
  - apply norm_zero_inv in H0. destruct H0 as (-> & -> & ->).
    rewrite Ropp_0, !rotation_matrix_zero_axis. split; reflexivity.
  - assert (Hn : sqrt (- x * - x + - y * - y + - z * - z) = n).
    { unfold n. f_equal. ring. }
    rewrite (rotation_matrix_nonzero_axis (- x)) by (rewrite Hn; exact H0).
    rewrite !(rotation_matrix_nonzero_axis x) by exact H0.
    rewrite Hn. fold n. split.
    + unfold rodrigues, transpose, vfin.
      repeat apply (f_equal2 pair); apply (f_equal Fin); field; exact H0.
    + symmetry. apply transpose_rodrigues.
Qed.

Lemma rodrigues_compose (x y z a b : R) :
  x * x + y * y + z * z = 1 ->
  matmul (rodrigues x y z a) (rodrigues x y z b) = rodrigues x y z (a + b).
Proof.
  intro Hu. unfold rodrigues. rewrite matmul_fin, cos_plus, sin_plus.
  unfold vfin.
  set (ca := cos a). set (sa := sin a). set (cb := cos b). set (sb := sin b).
  clearbody ca sa cb sb.
  repeat apply (f_equal2 pair); apply (f_equal Fin); nsatz.
Qed.

(** X6.  In exact arithmetic, rotations about one axis, not the zero
    vector, compose by adding their angles. *)
Theorem rotation_matrix_compose (x y z a b : R) :
  x <> 0 \/ y <> 0 \/ z <> 0 ->
  matmul (rotation_matrix (vfin x y z) a) (rotation_matrix (vfin x y z) b)
  = rotation_matrix (vfin x y z) (a + b).
Proof.
  intro Hne. pose proof (nonzero_norm x y z Hne) as Hn.
  rewrite !rotation_matrix_nonzero_axis by exact Hn.
  apply rodrigues_compose, normalized_unit, Hn.
Qed.

Lemma rotation_matrix_compose_witness :
  matmul (rotation_matrix (vfin 0 3 4) (PI / 3))
         (rotation_matrix (vfin 0 3 4) (PI / 6))
  = rotation_matrix (vfin 0 3 4) (PI / 3 + PI / 6).
Proof.
  apply (rotation_matrix_compose 0 3 4 (PI / 3) (PI / 6)).
  right. left. lra.
Defined.

(** X7.  In exact arithmetic the axis, if not the zero vector, is left
    in place, whatever its length and the angle. *)
Theorem rotation_matrix_fixes_axis (x y z angle : R) :
  x <> 0 \/ y <> 0 \/ z <> 0 ->
  matvec (rotation_matrix (vfin x y z) angle) (vfin x y z) = vfin x y z.
Proof.
  intro Hne. pose proof (nonzero_norm x y z Hne) as Hn.
  rewrite rotation_matrix_nonzero_axis by exact Hn.
  set (n := sqrt (x * x + y * y + z * z)) in *.
  pose proof (normalized_unit x y z Hn) as Hu. fold n in Hu.
  assert (Ex : x = n * (x / n)) by (field; exact Hn).
  assert (Ey : y = n * (y / n)) by (field; exact Hn).
  assert (Ez : z = n * (z / n)) by (field; exact Hn).
  set (ux := x / n) in *. set (uy := y / n) in *. set (uz := z / n) in *.
  clearbody ux uy uz n. subst x y z.
  unfold rodrigues. rewrite matvec_fin. unfold vfin.
  set (c := cos angle). set (s := sin angle). clearbody c s.
  repeat apply (f_equal2 pair); apply (f_equal Fin); nsatz.
Qed.

Lemma rotation_matrix_fixes_axis_witness :
  matvec (rotation_matrix (vfin 0 3 4) (PI / 3)) (vfin 0 3 4) = vfin 0 3 4.
Proof.
  apply (rotation_matrix_fixes_axis 0 3 4 (PI / 3)). right. left. lra.
Defined.

Lemma rodrigues_preserves_dot (x y z angle a b c p q r : R) :
  x * x + y * y + z * z = 1 ->
  dot (matvec (rodrigues x y z angle) (vfin a b c))
      (matvec (rodrigues x y z angle) (vfin p q r))
  = dot (vfin a b c) (vfin p q r).
Proof.
  intro Hu. pose proof (sin2_cos2 angle) as Ht. unfold Rsqr in Ht.
  unfold rodrigues. rewrite !matvec_fin. unfold dot, vfin, fadd, fmul, lift2.
  set (co := cos angle) in *. set (si := sin angle) in *. clearbody co si.
  apply (f_equal Fin). nsatz.
Qed.

(** X8.  In exact arithmetic the matrix of an axis other than the zero
    vector keeps the dot product of any two vectors, hence lengths and
    angles. *)
Theorem rotation_matrix_preserves_dot (x y z angle a b c p q r : R) :
  x <> 0 \/ y <> 0 \/ z <> 0 ->
  dot (matvec (rotation_matrix (vfin x y z) angle) (vfin a b c))
      (matvec (rotation_matrix (vfin x y z) angle) (vfin p q r))
  = dot (vfin a b c) (vfin p q r).
Proof.
  intro Hne. pose proof (nonzero_norm x y z Hne) as Hn.
  rewrite rotation_matrix_nonzero_axis by exact Hn.
  apply rodrigues_preserves_dot, normalized_unit, Hn.
Qed.

Lemma rotation_matrix_preserves_dot_witness :
  dot (matvec (rotation_matrix (vfin 0 3 4) (PI / 3)) (vfin 1 2 3))
      (matvec (rotation_matrix (vfin 0 3 4) (PI / 3)) (vfin 4 5 6))
  = dot (vfin 1 2 3) (vfin 4 5 6).
Proof.
  apply (rotation_matrix_preserves_dot 0 3 4 (PI / 3) 1 2 3 4 5 6).
  right. left. lra.
Defined.

(** X9.  In exact arithmetic the matrix depends on the angle modulo
    whole turns, for every axis. *)
Theorem rotation_matrix_angle_period (axis : vec) (angle : R) (k : Z) :
  rotation_matrix axis (angle + 2 * IZR k * PI) = rotation_matrix axis angle.
Proof.
  unfold rotation_matrix. rewrite cos_period_Z, sin_period_Z. reflexivity.
Qed.

Lemma rodrigues_transpose_undoes (x y z angle p q r : R) :
  x * x + y * y + z * z = 1 ->
  matvec (transpose (rodrigues x y z angle))
         (matvec (rodrigues x y z angle) (vfin p q r))
  = vfin p q r.
Proof.
  intro Hu. pose proof (sin2_cos2 angle) as Ht. unfold Rsqr in Ht.
  unfold rodrigues, transpose, vfin, matvec, dot, fadd, fmul, lift2.
  set (c := cos angle) in *. set (s := sin angle) in *. clearbody c s.
  repeat apply (f_equal2 pair); apply (f_equal Fin); nsatz.
Qed.

(** X10.  In exact arithmetic, for an axis other than the zero vector,
    the transpose undoes the rotation on every vector, and the rotation
    undoes the transpose. *)
Theorem rotation_matrix_transpose_undoes (x y z angle p q r : R) :
  x <> 0 \/ y <> 0 \/ z <> 0 ->
  let M := rotation_matrix (vfin x y z) angle in
  matvec (transpose M) (matvec M (vfin p q r)) = vfin p q r
  /\ matvec M (matvec (transpose M) (vfin p q r)) = vfin p q r.
Proof.
  intros Hne M. subst M. pose proof (nonzero_norm x y z Hne) as Hn.
  rewrite !rotation_matrix_nonzero_axis by exact Hn.
  pose proof (normalized_unit x y z Hn) as Hu. cbv zeta in Hu.
  split.
  - apply rodrigues_transpose_undoes. exact Hu.
  - rewrite transpose_rodrigues.
    rewrite <- (transpose_involutive (rodrigues _ _ _ angle)) at 1.
    rewrite transpose_rodrigues.
    apply rodrigues_transpose_undoes. exact Hu.
Qed.

Lemma rotation_matrix_transpose_undoes_witness :
  let M := rotation_matrix (vfin 0 3 4) (PI / 3) in
  matvec (transpose M) (matvec M (vfin 1 2 3)) = vfin 1 2 3
  /\ matvec M (matvec (transpose M) (vfin 1 2 3)) = vfin 1 2 3.
Proof.
  apply (rotation_matrix_transpose_undoes 0 3 4 (PI / 3) 1 2 3).
  right. left. lra.
Defined.

(** X11.  The matrix is Rodrigues' formula: with [u] the normalised
    axis, a vector [v] is sent to
    [cos angle * v + sin angle * (u x v) + (1 - cos angle) * (u . v) * u],
    a turn by [angle] about [u] by the right-hand rule. *)
Theorem rotation_matrix_is_rodrigues (x y z angle p q r : R) :
  x <> 0 \/ y <> 0 \/ z <> 0 ->
  let u := vdiv (vfin x y z) (norm (vfin x y z)) in
  let v := vfin p q r in
  matvec (rotation_matrix (vfin x y z) angle) v
  = vadd (vadd (vscale (Fin (cos angle)) v)
               (vscale (Fin (sin angle)) (cross u v)))
         (vscale ((Fin 1 - Fin (cos angle)) * dot u v)%fl u).
Proof.
  intros Hne u v. subst u v. pose proof (nonzero_norm x y z Hne) as Hn.
  rewrite rotation_matrix_nonzero_axis by exact Hn.
  rewrite norm_vfin. unfold vdiv, vfin, fdiv.
  destruct (Req_dec_T (sqrt (x * x + y * y + z * z)) 0) as [H|_];
    [contradiction|].
  unfold rodrigues, vfin, matvec, dot, cross, vadd, vscale,
    fadd, fsub, fmul, lift2.
  repeat apply (f_equal2 pair); apply (f_equal Fin); ring.
Qed.

Lemma rotation_matrix_is_rodrigues_witness :
  let u := vdiv (vfin 0 0 2) (norm (vfin 0 0 2)) in
  let v := vfin 1 0 0 in
  matvec (rotation_matrix (vfin 0 0 2) (PI / 2)) v
  = vadd (vadd (vscale (Fin (cos (PI / 2))) v)
               (vscale (Fin (sin (PI / 2))) (cross u v)))
         (vscale ((Fin 1 - Fin (cos (PI / 2))) * dot u v)%fl u).
Proof.
  apply (rotation_matrix_is_rodrigues 0 0 2 (PI / 2) 1 0 0).
  right. right. lra.
Defined.

(** ** Further properties of the simulator *)

Lemma linspace_first (start stop : R) (num : Z) (y : list R) :
  (1 <= num)%Z ->
  linspace start stop num = Returned y ->
  y !! 0%nat = Some start.
Proof.
  intros Hn Hy.
  destruct (Z.eq_dec num 1%Z) as [->|Hne].
  - rewrite linspace_1 in Hy. injection Hy as <-. simpl. f_equal. ring.
  - rewrite (linspace_lookup start stop num y 0) by (assumption || lia).
    f_equal. simpl. ring.
Qed.

Lemma linspace_last (start stop : R) (num : Z) (y : list R) :
  (2 <= num)%Z ->
  linspace start stop num = Returned y ->
  y !! Z.to_nat (num - 1) = Some stop.
Proof.
  intros Hn Hy.
  rewrite (linspace_lookup start stop num y) by (assumption || lia).
  f_equal. rewrite INR_IZR_INZ, Z2Nat.id by lia.
  field. apply not_0_IZR. lia.
Qed.





Lemma rodrigues_image (x y z angle p q r : R) :
  x * x + y * y + z * z = 1 ->
  exists p' q' r',
    matvec (rodrigues x y z angle) (vfin p q r) = vfin p' q' r'
    /\ p' * p' + q' * q' + r' * r' = p * p + q * q + r * r
    /\ p' * x + q' * y + r' * z = p * x + q * y + r * z.
Proof.
  intro Hu. eexists _, _, _. split; [reflexivity|].
  pose proof (sin2_cos2 angle) as Ht. unfold Rsqr in Ht.
  set (c := cos angle) in *. set (s := sin angle) in *. clearbody c s.
  split; nsatz.
Qed.

(** The vector stored at a step, before its conversion: of length 1, and
    as far from the Euler pole as the vector it comes from. *)
Lemma step_vector (alat alon angle : R) (transposed : bool) :
  let axis := spherical_to_cartesian alat alon in
  let rot := rotation_matrix axis angle in
  forall p q r : R,
    p * p + q * q + r * r = 1 ->
    exists p' q' r',
      matvec (if transposed then transpose rot else rot) (vfin p q r)
      = vfin p' q' r'
      /\ p' * p' + q' * q' + r' * r' = 1
      /\ dot (vfin p' q' r') axis = dot (vfin p q r) axis.
Proof.
  intros axis rot p q r Hv. subst rot axis.
  destruct (spherical_unit alat alon) as (x & y & z & -> & Hu).
  rewrite rotation_matrix_unit_axis by exact Hu.
  assert (E : (if transposed then transpose (rodrigues x y z angle)
               else rodrigues x y z angle)
              = rodrigues x y z (if transposed then - angle else angle)).
  { destruct transposed; [apply transpose_rodrigues|reflexivity]. }
  rewrite E.
  destruct (rodrigues_image x y z (if transposed then - angle else angle)
              p q r Hu) as (p' & q' & r' & Ei & Hn & Hd).
  exists p', q', r'. split; [exact Ei|]. split; [lra|].
  unfold dot, vfin, fadd, fmul, lift2. f_equal. exact Hd.
Qed.

(** X14.  In exact arithmetic no row of a result holds a NaN: every
    continent row and every apparent-pole row is a latitude in
    [[-90, 90]] with a longitude in [(-180, 180]].  (In binary64 the
    longitude -180 occurs as well.) *)
Theorem rows_are_coordinates
    (params : PlateMotionParameters) (lat lon : R) :
  (0 <= time_steps params)%Z ->
  exists result,
    simulate_plate_motion params lat lon = Returned result
    /\ Forall (fun row : float * float =>
                 exists a b : R,
                   row = (Fin a, Fin b)
                   /\ -90 <= a <= 90 /\ -180 < b <= 180)
              (continent_lat_lon result ++ apparent_pole_lat_lon result).
Proof.
  intro Hn.
  destruct (linspace_returns 0 (total_time_myr params) _ Hn)
    as (time & Htime & _).
  eexists. split; [apply simulate_returned; exact Htime|].
  cbn [continent_lat_lon apparent_pole_lat_lon].
  destruct (spherical_unit lat lon) as (p & q & r & Ev & Hv).
  apply Forall_app. split; apply Forall_forall; intros row Hrow;
    apply list_elem_of_In, in_map_iff in Hrow;
    destruct Hrow as (t & <- & _).
  - unfold continent_at. rewrite Ev.
    destruct (step_vector (rotation_axis_lat params)
                (rotation_axis_lon params)
                (deg2rad (angular_velocity_deg_per_myr params * t))
                false p q r Hv) as (p' & q' & r' & E & _ & _).
    cbn [negb] in E. rewrite E, cartesian_to_spherical_fin.
    eexists _, _. split; [reflexivity|].
    split; [apply latitude_range | apply longitude_range].
  - unfold apparent_pole_at.
    destruct (step_vector (rotation_axis_lat params)
                (rotation_axis_lon params)
                (deg2rad (angular_velocity_deg_per_myr params * t))
                true 0 0 1 ltac:(ring)) as (p' & q' & r' & E & _ & _).
    rewrite E, cartesian_to_spherical_fin.
    eexists _, _. split; [reflexivity|].
    split; [apply latitude_range | apply longitude_range].
Qed.

Lemma rows_are_coordinates_witness :
  exists result,
    simulate_plate_motion default_params 30 (-20) = Returned result
    /\ Forall (fun row : float * float =>
                 exists a b : R,
                   row = (Fin a, Fin b)
                   /\ -90 <= a <= 90 /\ -180 < b <= 180)
              (continent_lat_lon result ++ apparent_pole_lat_lon result).
Proof.
  apply (rows_are_coordinates default_params 30 (-20)). simpl. lia.
Defined.

(** X15.  In exact arithmetic every position of the continent is as
    far from the Euler pole as the reference point, and every position
    of the apparent pole as far from it as the spin axis: read as unit
    vectors, their dot products with the axis vector do not change along
    the run. *)
Theorem tracks_circle_the_euler_pole
    (params : PlateMotionParameters) (lat lon : R) :
  (0 <= time_steps params)%Z ->
  let axis :=
    spherical_to_cartesian (rotation_axis_lat params)
                           (rotation_axis_lon params) in
  exists result,
    simulate_plate_motion params lat lon = Returned result
    /\ forall i : nat,
        (i < Z.to_nat (time_steps params))%nat ->
        exists a b c d : R,
          continent_lat_lon result !! i = Some (Fin a, Fin b)
          /\ dot (spherical_to_cartesian a b) axis
             = dot (spherical_to_cartesian lat lon) axis
          /\ apparent_pole_lat_lon result !! i = Some (Fin c, Fin d)
          /\ dot (spherical_to_cartesian c d) axis
             = dot (vfin 0 0 1) axis.
Proof.
  intros Hn axis.
  destruct (linspace_returns 0 (total_time_myr params) _ Hn)
    as (time & Htime & Hlen).
  eexists. split; [apply simulate_returned; exact Htime|].
  cbn [continent_lat_lon apparent_pole_lat_lon].
  intros i Hi.
  destruct (lookup_lt_is_Some_2 time i) as [t Ht]; [lia|].
  rewrite !list_lookup_fmap, Ht. cbn [fmap option_fmap option_map].
  destruct (spherical_unit lat lon) as (p & q & r & Ev & Hv).
  unfold continent_at, apparent_pole_at. rewrite Ev.
  destruct (step_vector (rotation_axis_lat params)
              (rotation_axis_lon params)
              (deg2rad (angular_velocity_deg_per_myr params * t))
              false p q r Hv) as (p1 & q1 & r1 & E1 & N1 & D1).
  destruct (step_vector (rotation_axis_lat params)
              (rotation_axis_lon params)
              (deg2rad (angular_velocity_deg_per_myr params * t))
              true 0 0 1 ltac:(ring)) as (p2 & q2 & r2 & E2 & N2 & D2).
  cbn [negb] in E1. rewrite E1, E2, !cartesian_to_spherical_fin.
  eexists _, _, _, _. split; [reflexivity|].
  rewrite (unit_vector_angles p1 q1 r1 N1), (unit_vector_angles p2 q2 r2 N2).
  split; [exact D1|]. split; [reflexivity | exact D2].
Qed.

Lemma tracks_circle_the_euler_pole_witness :
  let axis := spherical_to_cartesian 60 (-90) in
  exists result,
    simulate_plate_motion default_params 30 (-20) = Returned result
    /\ forall i : nat,
        (i < Z.to_nat 200)%nat ->
        exists a b c d : R,
          continent_lat_lon result !! i = Some (Fin a, Fin b)
          /\ dot (spherical_to_cartesian a b) axis
             = dot (spherical_to_cartesian 30 (-20)) axis
          /\ apparent_pole_lat_lon result !! i = Some (Fin c, Fin d)
          /\ dot (spherical_to_cartesian c d) axis
             = dot (vfin 0 0 1) axis.
Proof.
  apply (tracks_circle_the_euler_pole default_params 30 (-20)). simpl. lia.
Defined.

(** X16.  In exact arithmetic the apparent-pole track is the track
    that a continent at the north pole would follow under the opposite
    angular velocity. *)
Theorem apparent_pole_is_reversed_drift
    (params : PlateMotionParameters) (lat lon lon0 : R) :
  let reversed :=
    {| angular_velocity_deg_per_myr := - angular_velocity_deg_per_myr params;
       rotation_axis_lat := rotation_axis_lat params;
       rotation_axis_lon := rotation_axis_lon params;
       total_time_myr := total_time_myr params;
       time_steps := time_steps params |} in
  match simulate_plate_motion params lat lon,
        simulate_plate_motion reversed 90 lon0 with
  | Returned r, Returned r' =>
      time_myr r = time_myr r'
      /\ apparent_pole_lat_lon r = continent_lat_lon r'
  | Raised e, Raised e' => e = e'
  | _, _ => False
  end.
Proof.
  intro reversed.
  destruct (Z.lt_ge_cases (time_steps params) 0) as [Hn|Hn].
  - rewrite !simulate_raised by exact Hn. reflexivity.
  - destruct (linspace_returns 0 (total_time_myr params) _ Hn)
      as (time & Htime & _).
    rewrite (simulate_returned params lat lon time Htime).
    rewrite (simulate_returned reversed 90 lon0 time Htime).
    cbn [time_myr continent_lat_lon apparent_pole_lat_lon].
    split; [reflexivity|].
    apply map_ext. intro t.
    unfold apparent_pole_at, continent_at, reversed.
    cbn [angular_velocity_deg_per_myr rotation_axis_lat rotation_axis_lon].
    destruct (spherical_unit (rotation_axis_lat params)
                (rotation_axis_lon params)) as (x & y & z & -> & Hu).
    rewrite !rotation_matrix_unit_axis by exact Hu.
    rewrite transpose_rodrigues.
    replace (deg2rad (- angular_velocity_deg_per_myr params * t))
      with (- deg2rad (angular_velocity_deg_per_myr params * t))
      by (unfold deg2rad; ring).
    do 2 f_equal.
    unfold spherical_to_cartesian, vfin.
    rewrite deg2rad_90, cos_PI2, sin_PI2.
    repeat apply (f_equal2 pair); apply (f_equal Fin); ring.
Qed.

(** X17.  In exact arithmetic two samples whose rotation angles differ
    by a multiple of 360 degrees carry the same continent row and the
    same apparent-pole row. *)
Theorem whole_turns_coincide
    (params : PlateMotionParameters) (lat lon : R)
    (result : SimulationResult) (i j : nat) (ti tj : R) (k : Z) :
  simulate_plate_motion params lat lon = Returned result ->
  time_myr result !! i = Some ti ->
  time_myr result !! j = Some tj ->
  angular_velocity_deg_per_myr params * ti
  - angular_velocity_deg_per_myr params * tj = 360 * IZR k ->
  exists c p,
    continent_lat_lon result !! i = Some c
    /\ continent_lat_lon result !! j = Some c
    /\ apparent_pole_lat_lon result !! i = Some p
    /\ apparent_pole_lat_lon result !! j = Some p.
Proof.
  intros Hsim Hi Hj Hturn.
  assert (Hn : (0 <= time_steps params)%Z).
  { destruct (Z.lt_ge_cases (time_steps params) 0) as [H|H]; [|exact H].
    rewrite simulate_raised in Hsim by exact H. discriminate. }
  destruct (linspace_returns 0 (total_time_myr params) _ Hn)
    as (time & Htime & _).
  rewrite (simulate_returned params lat lon time Htime) in Hsim.
  injection Hsim as <-.
  cbn [time_myr continent_lat_lon apparent_pole_lat_lon] in *.
  rewrite !list_lookup_fmap, Hi, Hj. cbn [fmap option_fmap option_map].
  eexists _, _. split; [reflexivity|].
  assert (E : deg2rad (angular_velocity_deg_per_myr params * ti)
              = deg2rad (angular_velocity_deg_per_myr params * tj)
                + 2 * IZR k * PI).
  { rewrite <- deg2rad_turns, <- deg2rad_plus. f_equal. lra. }
  unfold continent_at, apparent_pole_at, rotation_matrix.
  rewrite E, cos_period_Z, sin_period_Z. auto.
Qed.

Lemma whole_turns_coincide_witness :
  let params :=
    {| angular_velocity_deg_per_myr := 1;
       rotation_axis_lat := 60;
       rotation_axis_lon := -90;
       total_time_myr := 360;
       time_steps := 2 |} in
  exists result c p,
    simulate_plate_motion params 30 (-20) = Returned result
    /\ continent_lat_lon result !! 1%nat = Some c
    /\ continent_lat_lon result !! 0%nat = Some c
    /\ apparent_pole_lat_lon result !! 1%nat = Some p
    /\ apparent_pole_lat_lon result !! 0%nat = Some p.
Proof.
  intro params.
  destruct (linspace_returns 0 360 2) as (time & Htime & Hlen); [lia|].
  pose proof (simulate_returned params 30 (-20) time Htime) as Hsim.
  destruct (whole_turns_coincide params 30 (-20) _ 1 0 360 0 1 Hsim)
    as (c & p & H);
    cbn [time_myr angular_velocity_deg_per_myr].
  - rewrite (linspace_lookup 0 360 2 time 1 eq_refl Htime) by (simpl; lia).
    f_equal. change (2 - 1)%Z with 1%Z. simpl. lra.
  - rewrite (linspace_lookup 0 360 2 time 0 eq_refl Htime) by (simpl; lia).
    f_equal. change (2 - 1)%Z with 1%Z. simpl. lra.
  - unfold params. simpl. lra.
  - eexists _, c, p. split; [exact Hsim | exact H].
Defined.

(** X18.  In exact arithmetic a reference point at the Euler pole does
    not move: every continent row is the conversion of the pole's own
    vector. *)
Theorem continent_at_euler_pole_stays
    (params : PlateMotionParameters) :
  (0 <= time_steps params)%Z ->
  exists result,
    simulate_plate_motion params (rotation_axis_lat params)
                          (rotation_axis_lon params)
    = Returned result
    /\ continent_lat_lon result
       = replicate (Z.to_nat (time_steps params))
           (cartesian_to_spherical
              (spherical_to_cartesian (rotation_axis_lat params)
                                      (rotation_axis_lon params))).
Proof.
  intro Hn.
  destruct (linspace_returns 0 (total_time_myr params) _ Hn)
    as (time & Htime & Hlen).
  eexists. split; [apply simulate_returned; exact Htime|].
  cbn [continent_lat_lon]. rewrite <- Hlen.
  clear Htime Hlen. induction time as [|t time IH]; [reflexivity|].
  cbn [map length replicate]. rewrite continent_at_pole_fixed, IH.
  reflexivity.
Qed.

Lemma continent_at_euler_pole_stays_witness :
  exists result,
    simulate_plate_motion default_params 60 (-90) = Returned result
    /\ continent_lat_lon result
       = replicate (Z.to_nat 200)
           (cartesian_to_spherical (spherical_to_cartesian 60 (-90))).
Proof.
  apply (continent_at_euler_pole_stays default_params). simpl. lia.
Defined.

(** ** The rows of the summary table *)

Lemma astype_int_nonneg (x : R) : 0 <= x -> astype_int x = Zfloor x.
Proof. intro H. unfold astype_int. destruct (Rlt_dec x 0); [lra|reflexivity]. Qed.

Lemma astype_int_IZR (z : Z) : (0 <= z)%Z -> astype_int (IZR z) = z.
Proof.
  intro H. rewrite astype_int_nonneg by (apply IZR_le in H; exact H).
  apply ZfloorZ.
Qed.

Section SummaryIndices.
Variable res : SimulationResult.
Variable max_rows : Z.

Local Abbreviation len := (Z.of_nat (length (time_myr res))).
Local Abbreviation rows := (Z.min max_rows len).

Lemma summary_indices_raised :
  (max_rows < 0)%Z -> summary_indices res max_rows = Raised ValueError.
Proof.
  intro H. unfold summary_indices.
  rewrite linspace_negative by lia. reflexivity.
Qed.

Lemma summary_indices_returned :
  (0 <= max_rows)%Z ->
  exists indices,
    summary_indices res max_rows = Returned indices
    /\ length indices = Z.to_nat rows.
Proof.
  intro H. unfold summary_indices.
  destruct (linspace_returns 0 (IZR (len - 1)) rows) as (y & Hy & Hlen);
    [lia|].
  rewrite Hy. eexists. split; [reflexivity|].
  rewrite length_map. exact Hlen.
Qed.

(** The spacing of the rows is at least one sample. *)
Lemma summary_step :
  (2 <= rows)%Z -> 1 <= IZR (len - 1) / IZR (rows - 1).
Proof.
  intro H.
  assert (Hd : 0 < IZR (rows - 1)) by (apply IZR_lt; lia).
  assert (Hle : IZR (rows - 1) <= IZR (len - 1)) by (apply IZR_le; lia).
  apply Rmult_le_reg_r with (r := IZR (rows - 1)); [exact Hd|].
  unfold Rdiv. rewrite Rmult_assoc, Rinv_l by lra. lra.
Qed.

Lemma summary_indices_lookup (indices : list Z) (i : nat) :
  (2 <= rows)%Z ->
  summary_indices res max_rows = Returned indices ->
  (i < Z.to_nat rows)%nat ->
  indices !! i = Some (Zfloor (INR i * (IZR (len - 1) / IZR (rows - 1)))).
Proof.
  intros Hrows Hind Hi. unfold summary_indices in Hind.
  destruct (linspace_returns 0 (IZR (len - 1)) rows) as (y & Hy & Hlen);
    [lia|].
  rewrite Hy in Hind. injection Hind as <-.
  rewrite list_lookup_fmap.
  rewrite (linspace_lookup 0 (IZR (len - 1)) rows y i) by (assumption || lia).
  cbn [fmap option_fmap option_map]. f_equal.
  replace (0 + INR i * ((IZR (len - 1) - 0) / IZR (rows - 1)))
    with (INR i * (IZR (len - 1) / IZR (rows - 1)))
    by (unfold Rdiv; ring).
  apply astype_int_nonneg.
  pose proof (summary_step Hrows). pose proof (pos_INR i). nra.
Qed.

Lemma summary_indices_single (indices : list Z) :
  rows = 1%Z ->
  summary_indices res max_rows = Returned indices ->
  indices = [0%Z].
Proof.
  intros Hrows Hind. unfold summary_indices in Hind.
  rewrite Hrows, linspace_1 in Hind. injection Hind as <-.
  cbn [map]. f_equal.
  replace (0 * (IZR (len - 1) - 0) + 0) with (IZR 0) by ring.
  apply astype_int_IZR. lia.
Qed.

Lemma summary_index_bounds (indices : list Z) (i : nat) (idx : Z) :
  summary_indices res max_rows = Returned indices ->
  indices !! i = Some idx ->
  (0 <= idx < len)%Z.
Proof.
  intros Hind Hi.
  assert (Hmax : (0 <= max_rows)%Z).
  { destruct (Z.lt_ge_cases max_rows 0) as [H|H]; [|exact H].
    rewrite summary_indices_raised in Hind by exact H. discriminate. }
  destruct (summary_indices_returned Hmax) as (ind' & Hind' & Hlen).
  assert (ind' = indices) as -> by congruence.
  apply lookup_lt_Some in Hi as Hlt.
  destruct (Z.eq_dec rows 1%Z) as [H1|H1].
  - rewrite (summary_indices_single indices H1 Hind) in Hi.
    destruct i; [|discriminate]. injection Hi as <-. lia.
  - assert (Hrows : (2 <= rows)%Z) by lia.
    rewrite (summary_indices_lookup indices i Hrows Hind) in Hi by lia.
    injection Hi as <-.
    pose proof (summary_step Hrows) as Hstep.
    set (s := IZR (len - 1) / IZR (rows - 1)) in *.
    assert (Hd : 0 < IZR (rows - 1)) by (apply IZR_lt; lia).
    assert (Hi' : INR i <= IZR (rows - 1)).
    { rewrite INR_IZR_INZ. apply IZR_le. lia. }
    assert (Hup : INR i * s <= IZR (len - 1)).
    { replace (IZR (len - 1)) with (IZR (rows - 1) * s)
        by (unfold s; field; lra).
      apply Rmult_le_compat_r; lra. }
    pose proof (pos_INR i) as Hpos.
    split.
    + apply Zfloor_lub. simpl. nra.
    + pose proof (Zfloor_bound (INR i * s)) as [Hfl _].
      assert (IZR (Zfloor (INR i * s)) <= IZR (len - 1)) as Hle by lra.
      apply le_IZR in Hle. lia.
Qed.

Lemma summary_indices_increase (indices : list Z) (i j : nat) (a b : Z) :
  summary_indices res max_rows = Returned indices ->
  (i < j)%nat ->
  indices !! i = Some a ->
  indices !! j = Some b ->
  (a < b)%Z.
Proof.
  intros Hind Hij Ha Hb.
  assert (Hmax : (0 <= max_rows)%Z).
  { destruct (Z.lt_ge_cases max_rows 0) as [H|H]; [|exact H].
    rewrite summary_indices_raised in Hind by exact H. discriminate. }
  destruct (summary_indices_returned Hmax) as (ind' & Hind' & Hlen).
  assert (ind' = indices) as -> by congruence.
  apply lookup_lt_Some in Ha as Hi, Hb as Hj.
  assert (Hrows : (2 <= rows)%Z) by lia.
  rewrite (summary_indices_lookup indices i Hrows Hind) in Ha by lia.
  rewrite (summary_indices_lookup indices j Hrows Hind) in Hb by lia.
  injection Ha as <-. injection Hb as <-.
  pose proof (summary_step Hrows) as Hstep.
  set (s := IZR (len - 1) / IZR (rows - 1)) in *.
  assert (Hinr : INR i + 1 <= INR j).
  { rewrite <- S_INR. apply le_INR. lia. }
  pose proof (Zfloor_bound (INR i * s)) as [Hfl _].
  assert (Hlub : (Zfloor (INR i * s) + 1 <= Zfloor (INR j * s))%Z).
  { apply Zfloor_lub. rewrite plus_IZR. simpl. nra. }
  lia.
Qed.

End SummaryIndices.

(** X19.  The table can be asked for only when [max_rows] is not
    negative ([np.linspace] raises [ValueError] otherwise).  It then
    prints [min(max_rows, len)] rows, each at an index of the result,
    and the indices increase strictly: no sample is printed twice and
    the rows are in time order. *)
Theorem summary_indices_spec (res : SimulationResult) (max_rows : Z) :
  match summary_indices res max_rows with
  | Returned indices =>
      (0 <= max_rows)%Z
      /\ Z.of_nat (length indices)
         = Z.min max_rows (Z.of_nat (length (time_myr res)))
      /\ (forall (i : nat) (idx : Z),
             indices !! i = Some idx ->
             (0 <= idx < Z.of_nat (length (time_myr res)))%Z)
      /\ (forall (i j : nat) (a b : Z),
             (i < j)%nat ->
             indices !! i = Some a -> indices !! j = Some b -> (a < b)%Z)
  | Raised e => e = ValueError /\ (max_rows < 0)%Z
  end.
Proof.
  destruct (Z.lt_ge_cases max_rows 0) as [Hneg|Hpos].
  - rewrite summary_indices_raised by exact Hneg. auto.
  - destruct (summary_indices_returned res max_rows Hpos)
      as (indices & Hind & Hlen).
    rewrite Hind. split; [exact Hpos|]. split; [lia|]. split.
    + intros i idx Hi.
      apply (summary_index_bounds res max_rows indices i idx Hind Hi).
    + intros i j a b Hij Ha Hb.
      apply (summary_indices_increase res max_rows indices i j a b
               Hind Hij Ha Hb).
Qed.

Lemma getitem_in_range {A : Type} (arr : list A) (idx : Z) :
  (0 <= idx < Z.of_nat (length arr))%Z ->
  exists a, getitem arr idx = Some a /\ arr !! Z.to_nat idx = Some a.
Proof.
  intro H. unfold getitem.
  destruct (Z.ltb_spec idx 0); [lia|].
  destruct (lookup_lt_is_Some_2 arr (Z.to_nat idx)) as [a Ha]; [lia|].
  exists a. auto.
Qed.

(** X20.  When the three sequences of a result have one length, as
    those of a run do, every index chosen for the table has its row: the
    three reads of the loop succeed, and read the sample at that index
    (no wrap-around from a negative index). *)
Theorem summary_rows_exist
    (res : SimulationResult) (max_rows : Z) (indices : list Z) :
  length (continent_lat_lon res) = length (time_myr res) ->
  length (apparent_pole_lat_lon res) = length (time_myr res) ->
  summary_indices res max_rows = Returned indices ->
  Forall (fun idx : Z =>
            exists t c p,
              summary_row res idx = Some (t, c, p)
              /\ time_myr res !! Z.to_nat idx = Some t
              /\ continent_lat_lon res !! Z.to_nat idx = Some c
              /\ apparent_pole_lat_lon res !! Z.to_nat idx = Some p)
         indices.
Proof.
  intros Hc Hp Hind. apply Forall_forall. intros idx Hin.
  apply list_elem_of_lookup in Hin. destruct Hin as [i Hi].
  pose proof (summary_index_bounds res max_rows indices i idx Hind Hi) as Hb.
  destruct (getitem_in_range (time_myr res) idx Hb) as (t & Gt & Lt).
  destruct (getitem_in_range (continent_lat_lon res) idx) as (c & Gc & Lc);
    [rewrite Hc; exact Hb|].
  destruct (getitem_in_range (apparent_pole_lat_lon res) idx)
    as (p & Gp & Lp); [rewrite Hp; exact Hb|].
  exists t, c, p. unfold summary_row. rewrite Gt, Gc, Gp. auto.
Qed.

Lemma summary_rows_exist_witness :
  let res :=
    {| time_myr := [0; 60; 120];
       continent_lat_lon := [(Fin 30, Fin (-20)); (Fin 1, Fin 2); (Fin 3, Fin 4)];
       apparent_pole_lat_lon := [(Fin 90, Fin 0); (Fin 5, Fin 6); (Fin 7, Fin 8)]
    |} in
  exists indices,
    summary_indices res 2 = Returned indices
    /\ Forall (fun idx : Z =>
                 exists t c p,
                   summary_row res idx = Some (t, c, p)
                   /\ time_myr res !! Z.to_nat idx = Some t
                   /\ continent_lat_lon res !! Z.to_nat idx = Some c
                   /\ apparent_pole_lat_lon res !! Z.to_nat idx = Some p)
              indices.
Proof.
  intro res.
  destruct (summary_indices_returned res 2) as (indices & Hind & _); [lia|].
  exists indices. split; [exact Hind|].
  apply (summary_rows_exist res 2 indices); [reflexivity|reflexivity|].
  exact Hind.
Defined.

(** X21.  With room for two rows or more and two samples or more, the
    table starts at the first sample and ends at the last one. *)
Theorem summary_shows_both_ends (res : SimulationResult) (max_rows : Z) :
  (2 <= max_rows)%Z ->
  (2 <= length (time_myr res))%nat ->
  exists indices,
    summary_indices res max_rows = Returned indices
    /\ indices !! 0%nat = Some 0%Z
    /\ last indices = Some (Z.of_nat (length (time_myr res)) - 1)%Z.
Proof.
  intros Hmax Hlen.
  destruct (summary_indices_returned res max_rows) as (indices & Hind & Hl);
    [lia|].
  set (len := Z.of_nat (length (time_myr res))) in *.
  assert (Hrows : (2 <= Z.min max_rows len)%Z) by lia.
  exists indices. split; [exact Hind|]. split.
  - rewrite (summary_indices_lookup res max_rows indices 0 Hrows Hind)
      by lia.
    f_equal. simpl. rewrite Rmult_0_l. apply (ZfloorZ 0).
  - rewrite last_lookup, Hl.
    rewrite (summary_indices_lookup res max_rows indices _ Hrows Hind)
      by lia.
    f_equal. fold len.
    replace (INR (Init.Nat.pred (Z.to_nat (Z.min max_rows len))))
      with (IZR (Z.min max_rows len - 1))
      by (rewrite INR_IZR_INZ; f_equal; lia).
    replace (IZR (Z.min max_rows len - 1)
             * (IZR (len - 1) / IZR (Z.min max_rows len - 1)))
      with (IZR (len - 1))
      by (field; apply not_0_IZR; lia).
    apply ZfloorZ.
Qed.

Lemma summary_shows_both_ends_witness :
  let res :=
    {| time_myr := [0; 40; 80; 120];
       continent_lat_lon :=
         [(Fin 30, Fin (-20)); (Fin 1, Fin 2); (Fin 3, Fin 4); (Fin 5, Fin 6)];
       apparent_pole_lat_lon :=
         [(Fin 90, Fin 0); (Fin 80, Fin 7); (Fin 70, Fin 8); (Fin 60, Fin 9)]
    |} in
  exists indices,
    summary_indices res 3 = Returned indices
    /\ indices !! 0%nat = Some 0%Z
    /\ last indices = Some (Z.of_nat 4 - 1)%Z.
Proof.
  intro res. apply (summary_shows_both_ends res 3).
  - lia.
  - simpl. lia.
Defined.

(** X22.  The line saying that the table was truncated is appended
    exactly when the result has more samples than [max_rows]; otherwise
    the table has one row per sample, in order. *)
Theorem summary_truncation (res : SimulationResult) (max_rows : Z) :
  (0 <= max_rows)%Z ->
  exists indices,
    summary_indices res max_rows = Returned indices
    /\ (summary_truncated indices res = true
        <-> (max_rows < Z.of_nat (length (time_myr res)))%Z)
    /\ ((Z.of_nat (length (time_myr res)) <= max_rows)%Z ->
        indices = map Z.of_nat (seq 0 (length (time_myr res)))).
Proof.
  intro Hmax.
  destruct (summary_indices_returned res max_rows Hmax)
    as (indices & Hind & Hl).
  set (n := length (time_myr res)) in *.
  exists indices. split; [exact Hind|]. split.
  - unfold summary_truncated. fold n. rewrite Nat.ltb_lt. lia.
  - intro Hfit.
    assert (Hrows : Z.min max_rows (Z.of_nat n) = Z.of_nat n) by lia.
    rewrite Hrows, Nat2Z.id in Hl.
    apply list_eq. intro i.
    destruct (Nat.lt_ge_cases i n) as [Hi|Hi].
    + rewrite list_lookup_fmap, lookup_seq_lt by exact Hi.
      cbn [fmap option_fmap option_map]. rewrite Nat.add_0_l.
      destruct (Nat.eq_dec n 1%nat) as [H1|H1].
      * rewrite (summary_indices_single res max_rows indices) by
          (assumption || (fold n; lia)).
        assert (i = 0%nat) as -> by lia. reflexivity.
      * assert (H2 : (2 <= Z.min max_rows (Z.of_nat n))%Z) by lia.
        rewrite (summary_indices_lookup res max_rows indices i H2 Hind)
          by (fold n; lia).
        f_equal. fold n. rewrite Hrows.
        replace (IZR (Z.of_nat n - 1) / IZR (Z.of_nat n - 1)) with 1
          by (field; apply not_0_IZR; lia).
        rewrite Rmult_1_r, INR_IZR_INZ. apply ZfloorZ.
    + rewrite !lookup_ge_None_2; [reflexivity| |lia].
      rewrite length_map, length_seq. exact Hi.
Qed.

Lemma summary_truncation_witness :
  let res :=
    {| time_myr := [0; 40; 80; 120];
       continent_lat_lon :=
         [(Fin 30, Fin (-20)); (Fin 1, Fin 2); (Fin 3, Fin 4); (Fin 5, Fin 6)];
       apparent_pole_lat_lon :=
         [(Fin 90, Fin 0); (Fin 80, Fin 7); (Fin 70, Fin 8); (Fin 60, Fin 9)]
    |} in
  exists indices,
    summary_indices res 3 = Returned indices
    /\ (summary_truncated indices res = true
        <-> (3 < Z.of_nat (length (time_myr res)))%Z)
    /\ ((Z.of_nat (length (time_myr res)) <= 3)%Z ->
        indices = map Z.of_nat (seq 0 (length (time_myr res)))).
Proof.
  intro res. apply (summary_truncation res 3). lia.
Defined.

(** ** The annotated samples *)

(** Invariant of the scan of [np.argmin]: [pre] is the part already
    seen, [best] its first minimum, at index [best_index]. *)
Lemma argmin_from_spec (l : list R) :
  forall (pre : list R) (best_index : nat) (best : R),
    pre !! best_index = Some best ->
    (forall (j : nat) (x : R), pre !! j = Some x -> best <= x) ->
    (forall (j : nat) (x : R),
        (j < best_index)%nat -> pre !! j = Some x -> best < x) ->
    let r := argmin_from best_index best (length pre) l in
    exists v,
      (pre ++ l) !! r = Some v
      /\ (forall (j : nat) (x : R), (pre ++ l) !! j = Some x -> v <= x)
      /\ (forall (j : nat) (x : R),
             (j < r)%nat -> (pre ++ l) !! j = Some x -> v < x).
Proof.
  induction l as [|x l IH]; intros pre bi b Hb Hmin Hfirst; cbn zeta.
  - rewrite app_nil_r. exists b. auto.
  - cbn [argmin_from].
    replace (pre ++ x :: l) with ((pre ++ [x]) ++ l)
      by (rewrite <- app_assoc; reflexivity).
    replace (S (length pre)) with (length (pre ++ [x]))
      by (rewrite length_app; simpl; lia).
    destruct (Rlt_dec x b) as [Hlt|Hge].
    + apply IH.
      * rewrite lookup_app_r by lia. rewrite Nat.sub_diag. reflexivity.
      * intros j y Hj. apply lookup_app_Some in Hj.
        destruct Hj as [Hj|[_ Hj]].
        -- pose proof (Hmin j y Hj). lra.
        -- apply list_lookup_singleton_Some in Hj. destruct Hj as [_ <-]. lra.
      * intros j y Hlt' Hj. rewrite lookup_app_l in Hj by exact Hlt'.
        pose proof (Hmin j y Hj). lra.
    + apply IH.
      * rewrite lookup_app_l by (apply lookup_lt_Some in Hb; exact Hb).
        exact Hb.
      * intros j y Hj. apply lookup_app_Some in Hj.
        destruct Hj as [Hj|[_ Hj]].
        -- apply (Hmin j y Hj).
        -- apply list_lookup_singleton_Some in Hj. destruct Hj as [_ <-]. lra.
      * intros j y Hlt' Hj.
        apply lookup_lt_Some in Hb as Hbi.
        rewrite lookup_app_l in Hj by lia.
        apply (Hfirst j y Hlt' Hj).
Qed.

Lemma argmin_spec (l : list R) :
  match argmin l with
  | Returned r =>
      exists v,
        l !! r = Some v
        /\ (forall (j : nat) (x : R), l !! j = Some x -> v <= x)
        /\ (forall (j : nat) (x : R), (j < r)%nat -> l !! j = Some x -> v < x)
  | Raised e => e = ValueError /\ l = []
  end.
Proof.
  destruct l as [|x l]; [simpl; auto|].
  unfold argmin.
  apply (argmin_from_spec l [x] 0 x).
  - reflexivity.
  - intros j y Hj. apply list_lookup_singleton_Some in Hj.
    destruct Hj as [_ <-]. lra.
  - intros j y Hj. lia.
Qed.

(** The index that [np.argmin] gives to an annotation of time [t]:
    that of a sample nearest to [t], the earliest of them. *)
Lemma marker_index_spec (res : SimulationResult) (t : R) :
  match marker_index res t with
  | Returned r =>
      exists time_r,
        time_myr res !! r = Some time_r
        /\ (forall (j : nat) (x : R),
               time_myr res !! j = Some x ->
               Rabs (time_r - t) <= Rabs (x - t))
        /\ (forall (j : nat) (x : R),
               (j < r)%nat ->
               time_myr res !! j = Some x ->
               Rabs (time_r - t) < Rabs (x - t))
  | Raised e => e = ValueError /\ time_myr res = []
  end.
Proof.
  unfold marker_index.
  pose proof (argmin_spec (map (fun time => Rabs (time - t)) (time_myr res)))
    as H.
  destruct (argmin _) as [r|e].
  - destruct H as (v & Hv & Hmin & Hfirst).
    rewrite list_lookup_fmap in Hv.
    destruct (time_myr res !! r) as [time_r|] eqn:Hr; [|discriminate].
    injection Hv as <-.
    exists time_r. split; [reflexivity|]. split.
    + intros j x Hj. apply (Hmin j).
      rewrite list_lookup_fmap, Hj. reflexivity.
    + intros j x Hlt Hj. apply (Hfirst j); [exact Hlt|].
      rewrite list_lookup_fmap, Hj. reflexivity.
  - destruct H as [-> Hnil]. split; [reflexivity|].
    destruct (time_myr res); [reflexivity|discriminate].
Qed.


